(** * Cancellation-signal combination and tool wrapping (pi-tools.abort.ts)

    A shallow embedding of [src/agents/pi-tools.abort.ts] together with the
    part of the host platform it calls (AbortController, AbortSignal.any,
    EventTarget listeners), and the properties of the module proved on it.

    Objects live in stores and are named by references, so that JavaScript
    identity ([===]) is equality of references and mutation is visible
    through every alias. *)

From stdpp Require Import base strings option list gmap.

(* [length] is the length of a list throughout. *)
Abbreviation length := Datatypes.length (only parsing).

(** ** JavaScript values *)

Module JS.

(** Plain values; an object is known by its identity only. *)
Inductive jsval :=
  | VUndefined
  | VNull
  | VBool (b : bool)
  | VNumber (n : Z)
  | VString (s : string)
  | VObject (id : nat).

#[global] Instance jsval_eq_dec : EqDecision jsval.
Proof. solve_decision. Defined.

(** [typeof v] *)
Definition typeof (v : jsval) : string :=
  match v with
  | VUndefined => "undefined"
  | VNull => "object"
  | VBool _ => "boolean"
  | VNumber _ => "number"
  | VString _ => "string"
  | VObject _ => "object"
  end.

(** ToBoolean, as used by [if (v)] and [!v]. *)
Definition truthy (v : jsval) : bool :=
  match v with
  | VUndefined | VNull => false
  | VBool b => b
  | VNumber n => negb (n =? 0)%Z
  | VString s => negb (String.eqb s "")
  | VObject _ => true
  end.

(** An [Error] object: its [name] and [message]. *)
Record jserror := { err_name : string; err_message : string }.

#[global] Instance jserror_eq_dec : EqDecision jserror.
Proof. solve_decision. Defined.

(** [new Error(msg)] *)
Definition new_Error (msg : string) : jserror :=
  {| err_name := "Error"; err_message := msg |}.

(** [err.name = n] *)
Definition set_name (e : jserror) (n : string) : jserror :=
  {| err_name := n; err_message := err_message e |}.

(** The engine's error for calling a value that is not a function. *)
Definition not_a_function (what : string) : jserror :=
  {| err_name := "TypeError"; err_message := what +:+ " is not a function" |}.

(** Completion of a synchronous computation. *)
Inductive completion (A : Type) :=
  | Normal (a : A)
  | Throw (e : jserror).
Arguments Normal {A} a.
Arguments Throw {A} e.

End JS.
Export JS.

(** ** The signal store *)

Abbreviation ref := nat.

(** Callbacks registered as "abort" listeners.  [OnAbort c] is the closure
    [() => controller.abort()] of [combineAbortSignals], where [c] is the
    signal of the captured controller.  [Foreign k stops throws] is any
    other callback, with what the dispatch of an event depends on: [stops]
    says whether it calls [event.stopImmediatePropagation()], and [throws]
    is what it throws, if it does.  Such a callback is taken to trigger no
    signal itself. *)
Inductive closure :=
  | OnAbort (controller : ref)
  | Foreign (k : nat) (stops : bool) (throws : option jserror).

Definition stops_propagation (c : closure) : bool :=
  match c with
  | OnAbort _ => false
  | Foreign _ stops _ => stops
  end.

#[global] Instance closure_eq_dec : EqDecision closure.
Proof. solve_decision. Defined.

Record listener := { l_callback : closure; l_once : bool }.

#[global] Instance listener_eq_dec : EqDecision listener.
Proof. solve_decision. Defined.

(** What a function that is not the platform's does when it is called as
    [addEventListener(type, callback, options)]: it returns without using
    the callback, it throws, or it calls the callback before it returns. *)
Inductive foreign_fn :=
  | FReturns
  | FThrows (e : jserror)
  | FInvokes.

(** What sits in a method slot such as [addEventListener]. *)
Inductive method :=
  | MData (v : jsval)         (* not callable; [VUndefined] when missing *)
  | MEventTarget              (* the platform's EventTarget method *)
  | MForeign (f : foreign_fn). (* another function *)

Definition typeof_method (m : method) : string :=
  match m with
  | MData v => typeof v
  | MEventTarget | MForeign _ => "function"
  end.

(** An object that is passed where an AbortSignal is expected.  Genuine
    signals have a boolean [aborted] and the platform's methods; objects
    from another realm are not [instanceof AbortSignal]; anything else is
    malformed.  [s_sources] is [Some] for the dependent signals made by
    [AbortSignal.any]; [s_fired] counts the "abort" events fired at it. *)
Record sigobj := {
  s_instance : bool;
  s_aborted : jsval;
  s_addEventListener : method;
  s_removeEventListener : method;
  s_listeners : list listener;
  s_sources : option (list ref);
  s_dependents : list ref;
  s_fired : nat
}.

Abbreviation heap := (list sigobj).

Definition M (A : Type) : Type := heap → completion A * heap.

Definition ret {A} (a : A) : M A := λ h, (Normal a, h).
Definition throw {A} (e : jserror) : M A := λ h, (Throw e, h).
Definition bind {A B} (m : M A) (k : A → M B) : M B :=
  λ h, match m h with
       | (Normal a, h') => k a h'
       | (Throw e, h') => (Throw e, h')
       end.

Notation "'let*' x ':=' m 'in' k" := (bind m (λ x, k))
  (at level 10, x name, m at level 100, k at level 200).

(** Property reads; a reference outside the store reads [undefined].
    [aborted] is kept as a data property, whose read returns: an object
    whose [aborted] is an accessor that throws is outside the model. *)
Definition get_aborted (r : ref) (h : heap) : jsval :=
  match h !! r with Some o => s_aborted o | None => VUndefined end.

Definition is_aborted (r : ref) (h : heap) : bool := truthy (get_aborted r h).

Definition get_fired (r : ref) (h : heap) : nat :=
  match h !! r with Some o => s_fired o | None => 0 end.

(** ** The platform: AbortController, events, AbortSignal.any *)

Module Platform.

Definition fresh_signal (sources : option (list ref)) : sigobj :=
  {| s_instance := true; s_aborted := VBool false;
     s_addEventListener := MEventTarget; s_removeEventListener := MEventTarget;
     s_listeners := []; s_sources := sources; s_dependents := []; s_fired := 0 |}.

(** [new AbortController()]: the controller is known by its signal. *)
Definition new_AbortController : M ref :=
  λ h, (Normal (length h), h ++ [fresh_signal None]).

Definition with_listeners (o : sigobj) (ls : list listener) : sigobj :=
  {| s_instance := s_instance o; s_aborted := s_aborted o;
     s_addEventListener := s_addEventListener o;
     s_removeEventListener := s_removeEventListener o;
     s_listeners := ls; s_sources := s_sources o;
     s_dependents := s_dependents o; s_fired := s_fired o |}.

Definition with_dependents (o : sigobj) (ds : list ref) : sigobj :=
  {| s_instance := s_instance o; s_aborted := s_aborted o;
     s_addEventListener := s_addEventListener o;
     s_removeEventListener := s_removeEventListener o;
     s_listeners := s_listeners o; s_sources := s_sources o;
     s_dependents := ds; s_fired := s_fired o |}.

Definition set_aborted (o : sigobj) : sigobj :=
  {| s_instance := s_instance o; s_aborted := VBool true;
     s_addEventListener := s_addEventListener o;
     s_removeEventListener := s_removeEventListener o;
     s_listeners := s_listeners o; s_sources := s_sources o;
     s_dependents := s_dependents o; s_fired := s_fired o |}.

Definition count_event (o : sigobj) : sigobj :=
  {| s_instance := s_instance o; s_aborted := s_aborted o;
     s_addEventListener := s_addEventListener o;
     s_removeEventListener := s_removeEventListener o;
     s_listeners := s_listeners o; s_sources := s_sources o;
     s_dependents := s_dependents o; s_fired := S (s_fired o) |}.

(** EventTarget's "add an event listener" for type "abort": a listener
    with the same callback is not added twice. *)
Definition same_callback (l l' : listener) : bool :=
  bool_decide (l_callback l = l_callback l').

Definition add_listener (r : ref) (l : listener) (h : heap) : heap :=
  match h !! r with
  | Some o =>
      if existsb (same_callback l) (s_listeners o) then h
      else <[r := with_listeners o (s_listeners o ++ [l])]> h
  | None => h
  end.

Definition remove_listener (r : ref) (l : listener) (h : heap) : heap :=
  match h !! r with
  | Some o =>
      <[r := with_listeners o
               (filter (λ l', l' ≠ l) (s_listeners o))]> h
  | None => h
  end.

(** Event dispatch and the "signal abort" algorithm of the DOM standard.
    [run] is the abort algorithm available to the callbacks. *)
Definition run_callback (run : ref → heap → heap) (c : closure) : M unit :=
  λ h,
    match c with
    | OnAbort controller => (Normal (), run controller h)
    | Foreign _ _ None => (Normal (), h)
    | Foreign _ _ (Some e) => (Throw e, h)
    end.

(** Invoke the listeners of a snapshot [ls] of [r]'s list, in order; a
    once-listener is removed just before it is called, and the loop breaks
    after a callback that has stopped immediate propagation.  What a
    callback throws is reported by the platform and goes no further.  No
    callback of the model removes a listener of a signal whose dispatch is
    under way, so the standard's check of the removed flag is left out. *)
Fixpoint dispatch (run : ref → heap → heap) (r : ref)
    (ls : list listener) (h : heap) : heap :=
  match ls with
  | [] => h
  | l :: ls =>
      let h := if l_once l then remove_listener r l h else h in
      let '(_, h) := run_callback run (l_callback l) h in
      if stops_propagation (l_callback l) then h
      else dispatch run r ls h
  end.

(** "Run the abort steps": fire the "abort" event at [r]. *)
Definition fire_abort (run : ref → heap → heap) (h : heap) (r : ref) : heap :=
  match h !! r with
  | Some o => dispatch run r (s_listeners o) (<[r := count_event o]> h)
  | None => h
  end.

(** Mark the dependents that are not aborted yet, and collect them. *)
Fixpoint mark_dependents (ds : list ref) (h : heap) : list ref * heap :=
  match ds with
  | [] => ([], h)
  | d :: ds =>
      match h !! d with
      | Some o =>
          if truthy (s_aborted o) then mark_dependents ds h
          else
            let '(marked, h') := mark_dependents ds (<[d := set_aborted o]> h) in
            (d :: marked, h')
      | None => mark_dependents ds h
      end
  end.

(** "Signal abort".  Listeners may abort further signals; the nesting is
    bounded by [fuel]. *)
Fixpoint signal_abort (fuel : nat) (r : ref) (h : heap) : heap :=
  match fuel with
  | 0 => h
  | S fuel =>
      match h !! r with
      | Some o =>
          if truthy (s_aborted o) then h
          else
            let '(marked, h') :=
              mark_dependents (s_dependents o) (<[r := set_aborted o]> h) in
            fold_left (fire_abort (signal_abort fuel)) (r :: marked) h'
      | None => h
      end
  end.

(** What [controller.abort()], or any other way the platform has to
    trigger a signal, does to the store.  Every nested abort marks a signal
    that was pending, so the size of the store bounds the nesting. *)
Definition abort (r : ref) (h : heap) : heap :=
  signal_abort (S (length h)) r h.

(** Triggering a signal as a call: it returns normally, since what the
    listeners throw has been reported during the dispatch. *)
Definition trigger (r : ref) : M unit :=
  λ h, (Normal (), abort r h).

(** "Create a dependent abort signal" ([AbortSignal.any(signals)]). *)
Definition sources_of (h : heap) (r : ref) : list ref :=
  match h !! r with
  | Some o => match s_sources o with Some ss => ss | None => [r] end
  | None => []
  end.

Definition set_add (x : ref) (l : list ref) : list ref :=
  if bool_decide (x ∈ l) then l else l ++ [x].

Definition add_dependent (d : ref) (h : heap) (s : ref) : heap :=
  match h !! s with
  | Some o => <[s := with_dependents o (set_add d (s_dependents o))]> h
  | None => h
  end.

Definition AbortSignal_any (signals : list ref) : M ref :=
  λ h,
    let result := length h in
    if existsb (λ s, is_aborted s h) signals then
      (Normal result, h ++ [set_aborted (fresh_signal (Some []))])
    else
      let srcs := fold_left (λ acc s, set_add s acc) (signals ≫= sources_of h) [] in
      (Normal result,
       fold_left (add_dependent result) srcs (h ++ [fresh_signal (Some srcs)])).

End Platform.
Import Platform.

(** ** The module *)

(** [throwAbortError] (lines 3-7). *)
Definition throwAbortError {A} : M A :=
  let err := new_Error "Aborted" in
  let err := set_name err "AbortError" in
  throw err.

(** [isRealAbortSignal] (lines 14-26). *)
Definition isRealAbortSignal (r : ref) (h : heap) : bool :=
  match h !! r with
  | Some o =>
      if negb (s_instance o) then false
      else
        bool_decide (typeof (s_aborted o) = "boolean")
        && bool_decide (typeof_method (s_addEventListener o) = "function")
        && bool_decide (typeof_method (s_removeEventListener o) = "function")
  | None => false
  end.

(** [x?.addEventListener("abort", cb, { once: true })] on an object [x];
    [what] is the text of [x], which the engine puts in its TypeError. *)
Definition call_addEventListener (what : string) (r : ref) (cb : closure) : M unit :=
  λ h,
    match h !! r with
    | Some o =>
        match s_addEventListener o with
        | MData _ => (Throw (not_a_function (what +:+ "?.addEventListener")), h)
        | MEventTarget =>
            (Normal (), add_listener r {| l_callback := cb; l_once := true |} h)
        | MForeign FReturns => (Normal (), h)
        | MForeign (FThrows e) => (Throw e, h)
        | MForeign FInvokes => run_callback abort cb h
        end
    | None => (Throw (not_a_function (what +:+ "?.addEventListener")), h)
    end.

(** Lines 48-52: the derived signal built by hand. *)
Definition combine_manually (a b : ref) : M (option ref) :=
  let* controller := new_AbortController in
  let onAbort := OnAbort controller in
  let* _ := call_addEventListener "a" a onAbort in
  let* _ := call_addEventListener "b" b onAbort in
  ret (Some controller).

(** [combineAbortSignals] (lines 28-53).  [native_any] says whether
    [typeof AbortSignal.any === "function"] in the host. *)
Definition combineAbortSignals (native_any : bool) (a b : option ref) : M (option ref) :=
  match a, b with
  | None, None => ret None
  | Some a, None => ret (Some a)
  | None, Some b => ret (Some b)
  | Some a, Some b =>
      λ h,
        if is_aborted a h then (Normal (Some a), h)
        else if is_aborted b h then (Normal (Some b), h)
        else if native_any && isRealAbortSignal a h && isRealAbortSignal b h then
          (let* r := AbortSignal_any [a; b] in ret (Some r)) h
        else combine_manually a b h
  end.

(** ** Tools *)

(** Modelled from the spec: the type [AnyAgentTool] (pi-tools.types.ts) is
    not among the sources.  The spec has a tool as a record of metadata with
    an optional asynchronous [execute(callId, params, signal?, onUpdate?)].

    The value of a property of a tool is plain data, a function of the host,
    or the async arrow function built by [wrapToolWithAbortSignal] around
    the captured [execute] and [abortSignal]. *)
Inductive propval :=
  | PData (v : jsval)
  | PHost (k : nat)
  | PWrapped (execute : propval) (abortSignal : ref).

#[global] Instance propval_eq_dec : EqDecision propval.
Proof. solve_decision. Defined.

Definition is_function (p : propval) : bool :=
  match p with
  | PData _ => false
  | PHost _ | PWrapped _ _ => true
  end.

(** [!p] *)
Definition falsy (p : propval) : bool :=
  match p with
  | PData v => negb (truthy v)
  | PHost _ | PWrapped _ _ => false
  end.

(** A tool is the map of its own enumerable properties; tools live in a
    store of their own. *)
Abbreviation toolstore := (list (gmap string propval)).

(** [tool.execute] *)
Definition read_execute (t : gmap string propval) : propval :=
  default (PData VUndefined) (t !! "execute").

(** [wrapToolWithAbortSignal] (lines 55-76): the tool it returns and the
    tool store afterwards. *)
Definition wrapToolWithAbortSignal (tool : ref) (abortSignal : option ref)
    (T : toolstore) : ref * toolstore :=
  match abortSignal with
  | None => (tool, T)
  | Some abortSignal =>
      match T !! tool with
      | Some t =>
          let execute := read_execute t in
          if falsy execute then (tool, T)
          else (length T, T ++ [<["execute" := PWrapped execute abortSignal]> t])
      | None => (tool, T)
      end
  end.

(** ** Calling [execute] *)

(** The four arguments of [execute]; the progress callback is known by its
    identity. *)
Record callargs := {
  toolCallId : string;
  params : jsval;
  signal : option ref;
  onUpdate : option nat
}.

#[global] Instance callargs_eq_dec : EqDecision callargs.
Proof. solve_decision. Defined.

Definition with_signal (args : callargs) (s : option ref) : callargs :=
  {| toolCallId := toolCallId args; params := params args;
     signal := s; onUpdate := onUpdate args |}.

(** What the caller of [execute] gets: a synchronous throw, or a promise
    and how it settles. *)
Inductive outcome :=
  | Fulfilled (v : jsval)
  | Rejected (e : jserror)
  | Pending
  | Threw (e : jserror).

(** The signal store and the invocations of functions so far. *)
Record world := {
  signals : heap;
  trace : list (propval * callargs)
}.

Definition with_signals (w : world) (h : heap) : world :=
  {| signals := h; trace := trace w |}.

Definition entered (f : propval) (args : callargs) (w : world) : world :=
  {| signals := signals w; trace := trace w ++ [(f, args)] |}.

Definition invocations (f : propval) (w : world) : nat :=
  length (filter (λ e, e.1 = f) (trace w)).

(** [await p] inside an async function, as the settlement of that
    function's own promise: a throw while evaluating [p] rejects it. *)
Definition await (o : outcome) : outcome :=
  match o with
  | Threw e => Rejected e
  | _ => o
  end.

Section Execution.

(** Whether the host has [AbortSignal.any], and what its tool functions
    do when called. *)
Variable native_any : bool.
Variable host_fn : nat → callargs → heap → outcome * heap.

(** [f(toolCallId, params, signal, onUpdate)].  The [PWrapped] case is
    the async arrow function of lines 68-74. *)
Fixpoint call (f : propval) (args : callargs) (w : world) : outcome * world :=
  match f with
  | PData v => (Threw (not_a_function "execute"), w)
  | PHost k =>
      let w := entered f args w in
      let '(o, h) := host_fn k args (signals w) in
      (o, with_signals w h)
  | PWrapped execute abortSignal =>
      let w := entered f args w in
      match combineAbortSignals native_any (signal args) (Some abortSignal) (signals w) with
      | (Throw e, h) => (Rejected e, with_signals w h)
      | (Normal combined, h) =>
          if from_option (λ c, is_aborted c h) false combined then
            match throwAbortError (A := Empty_set) h with
            | (Throw e, h) => (Rejected e, with_signals w h)
            | (Normal x, _) => match x with end
            end
          else
            let '(o, w) := call execute (with_signal args combined) (with_signals w h) in
            (await o, w)
      end
  end.

End Execution.

(** The [execute] property of a stored tool. *)
Definition execute_of (T : toolstore) (tool : ref) : propval :=
  match T !! tool with
  | Some t => read_execute t
  | None => PData VUndefined
  end.

(** ** Auxiliary definitions for the statements *)

(** Nesting depth of wrappers. *)
Fixpoint psize (p : propval) : nat :=
  match p with
  | PData _ | PHost _ => 0
  | PWrapped execute _ => S (psize execute)
  end.

(** A method slot holding a function whose call returns, when the callback
    it is given returns. *)
Definition returns_normally (m : method) : bool :=
  match m with
  | MEventTarget | MForeign FReturns | MForeign FInvokes => true
  | MData _ | MForeign (FThrows _) => false
  end.

(** A method slot that holds no function other than the platform's. *)
Definition not_foreign (m : method) : bool :=
  match m with
  | MData _ | MEventTarget => true
  | MForeign _ => false
  end.

(** A signal on which nothing is registered. *)
Definition bare (h : heap) (c : ref) : Prop :=
  ∃ oc, h !! c = Some oc ∧ s_listeners oc = [] ∧ s_dependents oc = [].

(** None of the listeners stops the immediate propagation of the event. *)
Definition quiet (ls : list listener) : Prop :=
  ∀ l, l ∈ ls → stops_propagation (l_callback l) = false.

Definition AbortError : jserror :=
  {| err_name := "AbortError"; err_message := "Aborted" |}.

(** Sample objects used to exercise the statements. *)
Module Samples.

Definition pending_signal : sigobj := fresh_signal None.

Definition triggered_signal : sigobj := set_aborted (fresh_signal None).

(** [{ aborted: false }]: looks like a signal, has no methods. *)
Definition bare_flag : sigobj :=
  {| s_instance := false; s_aborted := VBool false;
     s_addEventListener := MData VUndefined;
     s_removeEventListener := MData VUndefined;
     s_listeners := []; s_sources := None; s_dependents := []; s_fired := 0 |}.

(** An instance whose [removeEventListener] has been deleted: it fails the
    structural check, and listeners can still be added to it. *)
Definition no_remove_signal : sigobj :=
  {| s_instance := true; s_aborted := VBool false;
     s_addEventListener := MEventTarget;
     s_removeEventListener := MData VUndefined;
     s_listeners := []; s_sources := None; s_dependents := []; s_fired := 0 |}.


(** A pending signal with an earlier listener that throws. *)
Definition noisy_signal : sigobj :=
  {| s_instance := true; s_aborted := VBool false;
     s_addEventListener := MEventTarget; s_removeEventListener := MEventTarget;
     s_listeners :=
       [{| l_callback := Foreign 0 false (Some (new_Error "listener failed"));
           l_once := false |}];
     s_sources := None; s_dependents := []; s_fired := 0 |}.

(** A signal of another realm. *)
Definition foreign_realm_signal : sigobj :=
  {| s_instance := false; s_aborted := VBool false;
     s_addEventListener := MEventTarget;
     s_removeEventListener := MEventTarget;
     s_listeners := []; s_sources := None; s_dependents := []; s_fired := 0 |}.

(** [echo]: resolves to its params unless its signal is triggered. *)
Definition echo_fn (k : nat) (args : callargs) (h : heap) : outcome * heap :=
  if from_option (λ s, is_aborted s h) false (signal args)
  then (Rejected AbortError, h)
  else (Fulfilled (params args), h).

Definition echo : gmap string propval :=
  {[ "name" := PData (VString "echo"); "execute" := PHost 0 ]}.

Definition metadata_only : gmap string propval :=
  {[ "name" := PData (VString "about") ]}.

Definition call1 : callargs :=
  {| toolCallId := "call-1"; params := VObject 7; signal := None; onUpdate := None |}.

Definition idle : world := {| signals := [pending_signal]; trace := [] |}.

Definition cancelled : world := {| signals := [triggered_signal]; trace := [] |}.

End Samples.

(** ** Describing how the signal store evolves *)

Definition aborted (o : sigobj) : bool := truthy (s_aborted o).

Definition is_composite (o : sigobj) : bool :=
  match s_sources o with Some _ => true | None => false end.

(** Signals still pending in the store. *)
Definition pending_count (h : heap) : nat :=
  length (filter (λ o, aborted o = false) h).

(** A signal proper: a boolean flag and the platform's own methods. *)
Definition genuine (o : sigobj) : Prop :=
  typeof (s_aborted o) = "boolean"
  ∧ s_addEventListener o = MEventTarget
  ∧ s_removeEventListener o = MEventTarget.

(** [r] is owned by a controller (it was not made by [AbortSignal.any]). *)
Definition controller_signal (h : heap) (r : ref) : Prop :=
  ∃ o, h !! r = Some o ∧ s_sources o = None.

(** Well-formed stores: every listener made by this module aborts a
    controller signal of the store, and every dependent is in the store and
    lists the signal among its sources. *)
Record wf (h : heap) : Prop := {
  wf_listeners :
    ∀ x o l t, h !! x = Some o → l ∈ s_listeners o →
      l_callback l = OnAbort t → controller_signal h t;
  wf_dependents :
    ∀ s os d, h !! s = Some os → d ∈ s_dependents os →
      ∃ od ss, h !! d = Some od ∧ s_sources od = Some ss ∧ s ∈ ss
}.

(** The parts of an object that aborting never changes. *)
Definition static_same (o o' : sigobj) : Prop :=
  s_instance o' = s_instance o
  ∧ s_addEventListener o' = s_addEventListener o
  ∧ s_removeEventListener o' = s_removeEventListener o
  ∧ s_sources o' = s_sources o
  ∧ s_dependents o' = s_dependents o.

(** What may happen to an object while aborts run. *)
Definition mono (o o' : sigobj) : Prop :=
  static_same o o'
  ∧ s_listeners o' ⊆ s_listeners o
  ∧ (aborted o = true → aborted o' = true)
  ∧ s_fired o ≤ s_fired o'.

(** What a completed abort does to an object: nothing, or it takes it from
    pending to triggered and fires its event once. *)
Definition obj_step (o o' : sigobj) : Prop :=
  o' = o
  ∨ (aborted o = false ∧ aborted o' = true ∧ s_fired o' = S (s_fired o)
     ∧ static_same o o' ∧ s_listeners o' ⊆ s_listeners o).

(** [pstep X h h']: the store went from [h] to [h'] by abort steps, the
    objects in [X] being in the middle of their own abort. *)
Record pstep (X : list ref) (h h' : heap) : Prop := {
  ps_length : length h' = length h;
  ps_obj :
    ∀ x o, h !! x = Some o →
      ∃ o', h' !! x = Some o' ∧ mono o o' ∧ (x ∉ X → obj_step o o');
  ps_closure :
    ∀ x o, x ∉ X → h !! x = Some o → aborted o = false → is_aborted x h' = true →
      (∀ pre l post t, s_listeners o = pre ++ l :: post → quiet pre →
         l_callback l = OnAbort t → t < length h → is_aborted t h' = true)
      ∧ (∀ d, s_sources o = None → d ∈ s_dependents o → d < length h →
           is_aborted d h' = true);
  ps_cause :
    ∀ x o, x ∉ X → h !! x = Some o → is_composite o = true →
      aborted o = false → is_aborted x h' = true →
      ∃ s os, h !! s = Some os ∧ aborted os = false ∧ s_sources os = None
              ∧ x ∈ s_dependents os ∧ is_aborted s h' = true
}.

(** The derived signal [c] follows [x]: [x] carries the listener of the
    manual path, behind listeners that let the event through, or [c] is
    registered wherever the native path put it. *)
Definition follows (h : heap) (c x : ref) : Prop :=
  (∃ ox pre l post, h !! x = Some ox ∧ s_listeners ox = pre ++ l :: post
                    ∧ quiet pre ∧ l_callback l = OnAbort c)
  ∨ ((∀ ox, h !! x = Some ox → s_sources ox = None → c ∈ s_dependents ox)
     ∧ (∀ s os, h !! s = Some os → aborted os = false →
          x ∈ s_dependents os → c ∈ s_dependents os)).

(** The invariant that ties a derived signal to its two inputs. *)
Record derived (h : heap) (a b c : ref) : Prop := {
  dv_valid : c < length h;
  dv_fired : get_fired c h = if is_aborted c h then 1 else 0;
  dv_pending :
    is_aborted c h = false →
    (is_aborted a h = false ∧ follows h c a)
    ∧ (is_aborted b h = false ∧ follows h c b)
}.

(** Triggering signals one after the other. *)
Fixpoint trigger_all (rs : list ref) : M unit :=
  match rs with
  | [] => ret ()
  | r :: rs => let* _ := trigger r in trigger_all rs
  end.

(** ** Describing what the combiner may do to the store *)

(** Everything of an object but its registrations. *)
Definition same_state (o o' : sigobj) : Prop :=
  s_instance o' = s_instance o
  ∧ s_aborted o' = s_aborted o
  ∧ s_addEventListener o' = s_addEventListener o
  ∧ s_removeEventListener o' = s_removeEventListener o
  ∧ s_sources o' = s_sources o
  ∧ s_fired o' = s_fired o.

(** [h'] has every object of [h], in the same state, with at least the
    listeners and dependents it had. *)
Definition registers_only (h h' : heap) : Prop :=
  ∀ x o, h !! x = Some o →
    ∃ o', h' !! x = Some o' ∧ same_state o o'
          ∧ s_listeners o ⊆ s_listeners o' ∧ s_dependents o ⊆ s_dependents o'.

(** [P] contains whatever its members can reach: the controllers their
    listeners abort, and their dependents. *)
Definition closed_under (P : ref → Prop) (h : heap) : Prop :=
  ∀ x o, P x → h !! x = Some o →
    (∀ l t, l ∈ s_listeners o → l_callback l = OnAbort t → P t)
    ∧ (∀ d, d ∈ s_dependents o → P d).

(** [h'] differs from [h] inside [P] only, where listeners may have gone. *)
Definition within (P : ref → Prop) (h h' : heap) : Prop :=
  length h' = length h
  ∧ (∀ x, ¬ P x → h' !! x = h !! x)
  ∧ (∀ x o', h' !! x = Some o' →
       ∃ o, h !! x = Some o ∧ s_listeners o' ⊆ s_listeners o
            ∧ s_dependents o' = s_dependents o).

(** * Properties *)

(** ** The combiner: absent and triggered inputs *)

(** C5: with no input the combiner returns nothing, and with one input it
    returns that very reference, leaving the store as it was. *)
Theorem combine_absent_inputs (native_any : bool) (a b : ref) (h : heap) :
  combineAbortSignals native_any None None h = (Normal None, h)
  ∧ combineAbortSignals native_any (Some a) None h = (Normal (Some a), h)
  ∧ combineAbortSignals native_any None (Some b) h = (Normal (Some b), h).
Proof. done. Qed.

(** C3: when both inputs are given and the first is triggered, the combiner
    returns the first input itself and allocates nothing. *)
Theorem combine_first_triggered (native_any : bool) (a b : ref) (h : heap) :
  is_aborted a h = true →
  combineAbortSignals native_any (Some a) (Some b) h = (Normal (Some a), h).
Proof. intros Ha. cbn. by rewrite Ha. Qed.

Lemma combine_first_triggered_witness :
  combineAbortSignals true (Some 0) (Some 1)
    [Samples.triggered_signal; Samples.pending_signal]
  = (Normal (Some 0), [Samples.triggered_signal; Samples.pending_signal]).
Proof. apply combine_first_triggered. reflexivity. Defined.

(** C10: when both inputs are triggered the first argument wins, whichever
    way round the two are passed. *)
Theorem combine_both_triggered_first_wins (native_any : bool) (a b : ref) (h : heap) :
  is_aborted a h = true →
  is_aborted b h = true →
  combineAbortSignals native_any (Some a) (Some b) h = (Normal (Some a), h)
  ∧ combineAbortSignals native_any (Some b) (Some a) h = (Normal (Some b), h).
Proof. intros Ha Hb. cbn. by rewrite Ha, Hb. Qed.

Lemma combine_both_triggered_first_wins_witness :
  let h := [Samples.triggered_signal; Samples.triggered_signal] in
  combineAbortSignals false (Some 0) (Some 1) h = (Normal (Some 0), h)
  ∧ combineAbortSignals false (Some 1) (Some 0) h = (Normal (Some 1), h).
Proof. apply combine_both_triggered_first_wins; reflexivity. Defined.

(** ** The combiner: malformed inputs *)

Lemma with_listeners_id (o : sigobj) : with_listeners o (s_listeners o) = o.
Proof. by destruct o. Qed.

(** Aborting a signal that has no listeners and no dependents. *)
Lemma abort_bare (c : ref) (h : heap) (oc : sigobj) :
  h !! c = Some oc → s_listeners oc = [] → s_dependents oc = [] →
  abort c h = if aborted oc then h else <[c := count_event (set_aborted oc)]> h.
Proof.
  intros Hc Hl Hd. unfold abort, aborted. cbn [signal_abort]. rewrite Hc.
  destruct (truthy (s_aborted oc)); [done|].
  rewrite Hd. cbn [mark_dependents fold_left]. unfold fire_abort.
  rewrite list_lookup_insert_eq by by eapply lookup_lt_Some.
  cbn [set_aborted s_listeners]. rewrite Hl. cbn [dispatch].
  by rewrite list_insert_insert_eq.
Qed.

Lemma abort_bare_length (c : ref) (h : heap) :
  bare h c → length (abort c h) = length h ∧ bare (abort c h) c.
Proof.
  intros (oc & Hc & Hl & Hd). rewrite (abort_bare c h oc Hc Hl Hd).
  destruct (aborted oc).
  - split; [done|]. by exists oc.
  - split; [by rewrite length_insert|].
    exists (count_event (set_aborted oc)).
    rewrite list_lookup_insert_eq by by eapply lookup_lt_Some. done.
Qed.

Lemma call_addEventListener_returns (what : string) (r c : ref)
    (h : heap) (o : sigobj) :
  h !! r = Some o →
  returns_normally (s_addEventListener o) = true →
  bare h c → r ≠ c →
  ∃ h', call_addEventListener what r (OnAbort c) h = (Normal (), h')
        ∧ length h' = length h
        ∧ bare h' c
        ∧ ∀ x ox, h !! x = Some ox → ∃ ox', h' !! x = Some ox'
            ∧ s_addEventListener ox' = s_addEventListener ox.
Proof.
  intros Hr Hm Hbare Hne. unfold call_addEventListener. rewrite Hr.
  assert (∀ x ox, h !! x = Some ox → ∃ ox', h !! x = Some ox'
            ∧ s_addEventListener ox' = s_addEventListener ox) as Hsame.
  { intros x ox Hx. by exists ox. }
  destruct (s_addEventListener o) as [v| |[|e|]]; try done.
  - eexists; split; [done|]. unfold add_listener. rewrite Hr.
    destruct (existsb _ _); [done|].
    split; [by rewrite length_insert|]. split.
    + destruct Hbare as (oc & Hc & Hbare). exists oc.
      by rewrite list_lookup_insert_ne.
    + intros x ox Hx. destruct (decide (x = r)) as [->|Hxr].
      * assert (ox = o) as -> by congruence.
        eexists. rewrite list_lookup_insert_eq by by eapply lookup_lt_Some.
        done.
      * exists ox. by rewrite list_lookup_insert_ne.
  - by eexists.
  - unfold run_callback. eexists; split; [done|].
    destruct (abort_bare_length c h Hbare) as (Hlen & Hbare'). do 2 (split; [done|]).
    destruct Hbare as (oc & Hc & Hl & Hd). rewrite (abort_bare c h oc Hc Hl Hd).
    destruct (aborted oc); [done|].
    intros x ox Hx. destruct (decide (x = c)) as [->|Hxc].
    + assert (ox = oc) as -> by congruence.
      eexists. rewrite list_lookup_insert_eq by by eapply lookup_lt_Some.
      done.
    + exists ox. by rewrite list_lookup_insert_ne.
Qed.

(** C8, as the code has it: for two provided, untriggered inputs of which at
    least one fails the structural check, and whose [addEventListener] slots
    both hold a function that returns, the combiner takes the manual path
    whatever the host offers, and returns the signal of the controller it
    has created. *)
Theorem combine_malformed_falls_back (native_any : bool) (a b : ref) (h : heap)
    (oa ob : sigobj) :
  h !! a = Some oa →
  h !! b = Some ob →
  is_aborted a h = false →
  is_aborted b h = false →
  isRealAbortSignal a h = false ∨ isRealAbortSignal b h = false →
  returns_normally (s_addEventListener oa) = true →
  returns_normally (s_addEventListener ob) = true →
  combineAbortSignals native_any (Some a) (Some b) h = combine_manually a b h
  ∧ ∃ h', combine_manually a b h = (Normal (Some (length h)), h')
          ∧ length h' = S (length h).
Proof.
  intros Ha Hb Hna Hnb Hreal Hma Hmb. split.
  - cbn. rewrite Hna, Hnb.
    destruct Hreal as [-> | ->]; by rewrite ?andb_false_r.
  - unfold combine_manually, bind, new_AbortController.
    pose proof (lookup_lt_Some _ _ _ Ha) as Hla.
    pose proof (lookup_lt_Some _ _ _ Hb) as Hlb.
    set (h1 := h ++ [fresh_signal None]).
    assert (h1 !! a = Some oa) as Ha1 by (unfold h1; by rewrite lookup_app_l).
    assert (h1 !! b = Some ob) as Hb1 by (unfold h1; by rewrite lookup_app_l).
    assert (bare h1 (length h)) as Hc1.
    { exists (fresh_signal None). unfold h1. rewrite lookup_app_r by done.
      by rewrite Nat.sub_diag. }
    destruct (call_addEventListener_returns "a" a (length h) h1 oa Ha1 Hma Hc1)
      as (h2 & -> & Hlen2 & Hc2 & Hframe2); [lia|].
    destruct (Hframe2 _ _ Hb1) as (ob2 & Hb2 & Hmb2).
    rewrite <- Hmb2 in Hmb.
    destruct (call_addEventListener_returns "b" b (length h) h2 ob2 Hb2 Hmb Hc2)
      as (h3 & -> & Hlen3 & _); [lia|].
    exists h3. split; [done|].
    rewrite Hlen3, Hlen2. unfold h1. rewrite length_app. simpl. lia.
Qed.

Lemma combine_malformed_falls_back_witness :
  let h := [Samples.no_remove_signal; Samples.pending_signal] in
  combineAbortSignals true (Some 0) (Some 1) h = combine_manually 0 1 h
  ∧ ∃ h', combine_manually 0 1 h = (Normal (Some 2), h')
          ∧ length h' = 3.
Proof.
  apply (combine_malformed_falls_back true 0 1
           [Samples.no_remove_signal; Samples.pending_signal]
           Samples.no_remove_signal Samples.pending_signal);
    first [reflexivity | left; reflexivity].
Defined.

(** Counterexample to C8 as stated: an untriggered object without an
    [addEventListener] method fails the structural check, and the manual
    path then calls the missing method and throws. *)
Lemma combine_malformed_crashes :
  let h := [Samples.bare_flag; Samples.pending_signal] in
  isRealAbortSignal 0 h = false
  ∧ is_aborted 0 h = false
  ∧ is_aborted 1 h = false
  ∧ combineAbortSignals true (Some 0) (Some 1) h
    = (Throw {| err_name := "TypeError";
                err_message := "a?.addEventListener is not a function" |},
       h ++ [fresh_signal None])
  ∧ ¬ ∃ r h', combineAbortSignals true (Some 0) (Some 1) h = (Normal r, h').
Proof.
  repeat split; try reflexivity.
  intros (r & h' & H). vm_compute in H. discriminate H.
Qed.

(** ** The wrapper: which tool comes back *)

(** C6: without an ambient signal the wrapper returns the tool it was given
    and leaves the tool store alone. *)
Theorem wrap_without_signal_is_identity (tool : ref) (T : toolstore) :
  wrapToolWithAbortSignal tool None T = (tool, T).
Proof. done. Qed.

(** C7: a tool whose [execute] is missing (or otherwise falsy) is returned
    as it is, whatever the ambient signal. *)
Theorem wrap_without_execute_is_identity (tool abortSignal : ref) (T : toolstore) :
  falsy (execute_of T tool) = true →
  wrapToolWithAbortSignal tool (Some abortSignal) T = (tool, T).
Proof.
  unfold execute_of, wrapToolWithAbortSignal.
  destruct (T !! tool) as [t|]; [|done]. by intros ->.
Qed.

Lemma wrap_without_execute_is_identity_witness :
  wrapToolWithAbortSignal 0 (Some 0) [Samples.metadata_only]
  = (0, [Samples.metadata_only]).
Proof. apply wrap_without_execute_is_identity. reflexivity. Defined.

Lemma is_function_not_falsy (p : propval) : is_function p = true → falsy p = false.
Proof. by destruct p. Qed.

Lemma wrap_with_execute (tool abortSignal : ref) (T : toolstore) (t : gmap string propval) :
  T !! tool = Some t →
  is_function (read_execute t) = true →
  wrapToolWithAbortSignal tool (Some abortSignal) T
  = (length T, T ++ [<["execute" := PWrapped (read_execute t) abortSignal]> t]).
Proof.
  intros Ht Hf. unfold wrapToolWithAbortSignal. rewrite Ht.
  by rewrite (is_function_not_falsy _ Hf).
Qed.

Lemma execute_of_wrapped (T : toolstore) (t : gmap string propval) (p : propval) :
  execute_of (T ++ [<["execute" := p]> t]) (length T) = p.
Proof.
  unfold execute_of. rewrite lookup_app_r by done. rewrite Nat.sub_diag. simpl.
  unfold read_execute. by rewrite lookup_insert_eq.
Qed.

(** C9: for a tool with an execution operation, the wrapper allocates a new
    tool; every property of it other than [execute] is that of the original,
    and every tool already in the store, the original included, is left as it
    was. *)
Theorem wrap_preserves_other_fields (tool abortSignal : ref) (T : toolstore)
    (t : gmap string propval) :
  T !! tool = Some t →
  is_function (read_execute t) = true →
  ∃ t', wrapToolWithAbortSignal tool (Some abortSignal) T = (length T, T ++ [t'])
        ∧ length T ≠ tool
        ∧ (T ++ [t']) !! length T = Some t'
        ∧ (∀ k, k ≠ "execute" → t' !! k = t !! k)
        ∧ (T ++ [t']) !! tool = Some t
        ∧ (∀ i, i < length T → (T ++ [t']) !! i = T !! i).
Proof.
  intros Ht Hf. pose proof (lookup_lt_Some _ _ _ Ht) as Hlt.
  eexists. split; [by apply wrap_with_execute|].
  split; [lia|]. split.
  { rewrite lookup_app_r by done. by rewrite Nat.sub_diag. }
  split.
  { intros k Hk. by rewrite lookup_insert_ne. }
  split.
  { by rewrite lookup_app_l. }
  intros i Hi. by rewrite lookup_app_l.
Qed.

Lemma wrap_preserves_other_fields_witness :
  ∃ t', wrapToolWithAbortSignal 0 (Some 0) [Samples.echo] = (1, [Samples.echo] ++ [t'])
        ∧ 1 ≠ 0
        ∧ ([Samples.echo] ++ [t']) !! 1 = Some t'
        ∧ (∀ k, k ≠ "execute" → t' !! k = Samples.echo !! k)
        ∧ ([Samples.echo] ++ [t']) !! 0 = Some Samples.echo
        ∧ (∀ i, i < 1 → ([Samples.echo] ++ [t']) !! i = [Samples.echo] !! i).
Proof.
  apply (wrap_preserves_other_fields 0 0 [Samples.echo] Samples.echo); reflexivity.
Defined.

(** ** The wrapper: what the wrapped operation does *)

Section Calls.

Variable native_any : bool.
Variable host_fn : nat → callargs → heap → outcome * heap.



(** A call appends to the trace: its own entry first when the callee is a
    function, and then only entries of the callees nested inside it. *)
Lemma call_trace (f : propval) (args : callargs) (w : world) :
  ∃ rest,
    trace (call native_any host_fn f args w).2
    = trace w ++ (if is_function f then [(f, args)] else []) ++ rest
    ∧ Forall (λ e, psize e.1 < psize f) rest.
Proof.
  revert args w. induction f as [v|k|f IH amb]; intros args w; simpl.
  - exists []. simpl. by rewrite ?app_nil_r.
  - destruct (host_fn k args (signals w)) as [o h]. simpl.
    exists []. simpl. by rewrite ?app_nil_r.
  - destruct (combineAbortSignals _ _ _ _) as [[c|e] h]; simpl.
    + destruct (from_option _ _ _); simpl.
      * exists []. simpl. by rewrite ?app_nil_r.
      * destruct (IH (with_signal args c)
                    (with_signals (entered (PWrapped f amb) args w) h))
          as (rest & Hrest & Hsmall).
        destruct (call native_any host_fn f _ _) as [o w'] eqn:Hcall. simpl in *.
        rewrite Hrest. rewrite <- app_assoc. eexists. split; [done|].
        apply Forall_app. split.
        -- destruct (is_function f); constructor; simpl; [lia | constructor].
        -- eapply Forall_impl; [exact Hsmall|]. simpl. lia.
    + exists []. simpl. by rewrite ?app_nil_r.
Qed.

Lemma invocations_app (f : propval) (h : heap) (l1 l2 : list (propval * callargs)) :
  invocations f {| signals := h; trace := l1 ++ l2 |}
  = invocations f {| signals := h; trace := l1 |}
    + length (filter (λ e, e.1 = f) l2).
Proof. unfold invocations. simpl. by rewrite filter_app, length_app. Qed.

Lemma filter_smaller (f : propval) (l : list (propval * callargs)) :
  Forall (λ e, psize e.1 < psize f) l → filter (λ e, e.1 = f) l = [].
Proof.
  induction 1 as [|e l He _ IH]; [done|].
  rewrite filter_cons_False; [done|]. intros Heq. rewrite Heq in He. lia.
Qed.

Lemma invocations_call (f : propval) (args : callargs) (w : world) :
  is_function f = true →
  invocations f (call native_any host_fn f args w).2 = S (invocations f w).
Proof.
  intros Hf. destruct (call_trace f args w) as (rest & Htr & Hsmall).
  rewrite Hf in Htr. unfold invocations. rewrite Htr.
  rewrite !filter_app, !length_app, (filter_smaller _ _ Hsmall).
  rewrite filter_cons_True by done. simpl. lia.
Qed.

Lemma psize_wrapped_ne (f : propval) (amb : ref) : PWrapped f amb ≠ f.
Proof. intros H. apply (f_equal psize) in H. simpl in H. lia. Qed.

Lemma execute_of_function (T : toolstore) (tool : ref) :
  is_function (execute_of T tool) = true →
  ∃ t, T !! tool = Some t ∧ read_execute t = execute_of T tool.
Proof.
  unfold execute_of. destruct (T !! tool) as [t|]; [|done]. by exists t.
Qed.

Lemma wrapped_execute_of (tool amb : ref) (T : toolstore) :
  is_function (execute_of T tool) = true →
  let wrapped := wrapToolWithAbortSignal tool (Some amb) T in
  execute_of wrapped.2 wrapped.1 = PWrapped (execute_of T tool) amb.
Proof.
  intros Hf wrapped. unfold wrapped.
  destruct (execute_of_function _ _ Hf) as (t & Ht & Hex).
  rewrite <- Hex in Hf. rewrite (wrap_with_execute _ _ _ _ Ht Hf). simpl.
  by rewrite execute_of_wrapped, Hex.
Qed.

(** C1: when the signal combined from the per-call and the ambient signal
    is already triggered, calling the wrapped operation rejects with the
    error named "AbortError" with message "Aborted", and the trace gains
    the wrapper's own entry only: the original operation is not invoked. *)
Theorem wrapped_execute_rejects_when_triggered (tool amb : ref) (T : toolstore)
    (args : callargs) (w : world) (c : ref) (h' : heap) :
  is_function (execute_of T tool) = true →
  combineAbortSignals native_any (signal args) (Some amb) (signals w)
  = (Normal (Some c), h') →
  is_aborted c h' = true →
  let wrapped := wrapToolWithAbortSignal tool (Some amb) T in
  let f := execute_of T tool in
  let g := execute_of wrapped.2 wrapped.1 in
  call native_any host_fn g args w
  = (Rejected {| err_name := "AbortError"; err_message := "Aborted" |},
     {| signals := h'; trace := trace w ++ [(g, args)] |})
  ∧ invocations f {| signals := h'; trace := trace w ++ [(g, args)] |}
    = invocations f w.
Proof.
  intros Hf Hc Hab wrapped f g.
  assert (g = PWrapped f amb) as Hg by by apply wrapped_execute_of.
  split.
  - rewrite Hg. simpl. rewrite Hc. simpl. by rewrite Hab.
  - rewrite invocations_app. simpl.
    rewrite filter_cons_False, filter_nil; simpl.
    + destruct w; unfold invocations; simpl; lia.
    + rewrite Hg. apply psize_wrapped_ne.
Qed.


End Calls.

Lemma wrapped_execute_rejects_when_triggered_witness :
  let wrapped := wrapToolWithAbortSignal 0 (Some 0) [Samples.echo] in
  let f := execute_of [Samples.echo] 0 in
  let g := execute_of wrapped.2 wrapped.1 in
  call true Samples.echo_fn g Samples.call1 Samples.cancelled
  = (Rejected {| err_name := "AbortError"; err_message := "Aborted" |},
     {| signals := [Samples.triggered_signal];
        trace := trace Samples.cancelled ++ [(g, Samples.call1)] |})
  ∧ invocations f {| signals := [Samples.triggered_signal];
                     trace := trace Samples.cancelled ++ [(g, Samples.call1)] |}
    = invocations f Samples.cancelled.
Proof.
  apply (wrapped_execute_rejects_when_triggered true Samples.echo_fn 0 0
           [Samples.echo] Samples.call1 Samples.cancelled 0
           [Samples.triggered_signal]); reflexivity.
Defined.


(** The end-to-end scenarios: the wrapped echo tool resolves to its
    parameters under a pending ambient signal, and rejects under a triggered
    one. *)
Example echo_resolves :
  let wrapped := wrapToolWithAbortSignal 0 (Some 0) [Samples.echo] in
  (call true Samples.echo_fn (execute_of wrapped.2 wrapped.1)
     Samples.call1 Samples.idle).1
  = Fulfilled (VObject 7).
Proof. reflexivity. Qed.

Example echo_rejects :
  let wrapped := wrapToolWithAbortSignal 0 (Some 0) [Samples.echo] in
  (call true Samples.echo_fn (execute_of wrapped.2 wrapped.1)
     Samples.call1 Samples.cancelled).1
  = Rejected AbortError.
Proof. reflexivity. Qed.

(** ** How aborts move the store *)

Lemma is_aborted_Some (h : heap) (r : ref) (o : sigobj) :
  h !! r = Some o → is_aborted r h = aborted o.
Proof. intros H. unfold is_aborted, get_aborted. by rewrite H. Qed.

Lemma is_aborted_valid (h : heap) (r : ref) :
  is_aborted r h = true → ∃ o, h !! r = Some o ∧ aborted o = true.
Proof.
  unfold is_aborted, get_aborted. destruct (h !! r) as [o|]; [|done]. eauto.
Qed.

Lemma static_same_refl (o : sigobj) : static_same o o.
Proof. by repeat split. Qed.

Lemma static_same_trans (o1 o2 o3 : sigobj) :
  static_same o1 o2 → static_same o2 o3 → static_same o1 o3.
Proof.
  intros (?&?&?&?&?) (?&?&?&?&?). repeat split; congruence.
Qed.

Lemma mono_refl (o : sigobj) : mono o o.
Proof. split; [apply static_same_refl|]. split; [done|]. split; [done|lia]. Qed.

Lemma mono_trans (o1 o2 o3 : sigobj) : mono o1 o2 → mono o2 o3 → mono o1 o3.
Proof.
  intros (Hs1 & Hl1 & Ha1 & Hf1) (Hs2 & Hl2 & Ha2 & Hf2).
  split; [by eapply static_same_trans|].
  split; [set_solver|]. split; [auto | lia].
Qed.

Lemma obj_step_mono (o o' : sigobj) : obj_step o o' → mono o o'.
Proof.
  intros [-> | (Ha & Ha' & Hf & Hs & Hl)]; [apply mono_refl|].
  split; [done|]. split; [done|]. split; [congruence | lia].
Qed.

Lemma obj_step_aborted (o o' : sigobj) :
  obj_step o o' → aborted o = true → o' = o.
Proof. intros [-> | (Ha & _)]; [done | congruence]. Qed.

Lemma obj_step_pending (o o' : sigobj) :
  obj_step o o' → aborted o' = false → o' = o.
Proof. intros [-> | (_ & Ha & _)]; [done | congruence]. Qed.

Lemma obj_step_trans (o1 o2 o3 : sigobj) :
  obj_step o1 o2 → obj_step o2 o3 → obj_step o1 o3.
Proof.
  intros [-> | H12]; [done|]. intros H23.
  rewrite (obj_step_aborted _ _ H23) by tauto. by right.
Qed.

Section Progress.

Implicit Types (h : heap) (X : list ref).

Lemma pstep_refl X h : pstep X h h.
Proof.
  split; [done| | |].
  - intros x o Hx. exists o. split; [done|]. split; [apply mono_refl | by left].
  - intros x o _ Hx Ho Hab. rewrite (is_aborted_Some _ _ _ Hx) in Hab. congruence.
  - intros x o _ Hx _ Ho Hab. rewrite (is_aborted_Some _ _ _ Hx) in Hab. congruence.
Qed.

Lemma pstep_weaken X Y h h' : X ⊆ Y → pstep X h h' → pstep Y h h'.
Proof.
  intros HXY [Hlen Hobj Hcl Hca]. split; [done| | |].
  - intros x o Hx. destruct (Hobj x o Hx) as (o' & Hx' & Hm & Hs).
    exists o'. split; [done|]. split; [done|]. intros HY. apply Hs.
    intros Hin. by apply HY, HXY.
  - intros x o HY. apply Hcl. intros Hin. by apply HY, HXY.
  - intros x o HY. apply Hca. intros Hin. by apply HY, HXY.
Qed.

Lemma pstep_is_aborted X h h' (r : ref) :
  pstep X h h' → is_aborted r h = true → is_aborted r h' = true.
Proof.
  intros Hp Hab. destruct (is_aborted_valid _ _ Hab) as (o & Hr & Ho).
  destruct (ps_obj _ _ _ Hp r o Hr) as (o' & Hr' & (_ & _ & Hm & _) & _).
  rewrite (is_aborted_Some _ _ _ Hr'). auto.
Qed.

Lemma pstep_pending_back X h h' (r : ref) (o' : sigobj) :
  pstep X h h' → h' !! r = Some o' → aborted o' = false →
  ∃ o, h !! r = Some o ∧ aborted o = false ∧ mono o o'.
Proof.
  intros Hp Hr' Ho'.
  assert (r < length h) as Hlt.
  { rewrite <- (ps_length _ _ _ Hp). by eapply lookup_lt_Some. }
  destruct (lookup_lt_is_Some_2 _ _ Hlt) as [o Hr].
  destruct (ps_obj _ _ _ Hp r o Hr) as (o2 & Hr2 & Hm & _).
  assert (o2 = o') as -> by congruence.
  exists o. split; [done|]. split; [|done].
  destruct Hm as (_ & _ & Hm & _). destruct (aborted o); [|done].
  rewrite Hm in Ho'; done.
Qed.

Lemma pstep_trans X h1 h2 h3 : pstep X h1 h2 → pstep X h2 h3 → pstep X h1 h3.
Proof.
  intros H12 H23. split.
  - rewrite (ps_length _ _ _ H23). apply (ps_length _ _ _ H12).
  - intros x o1 Hx1.
    destruct (ps_obj _ _ _ H12 x o1 Hx1) as (o2 & Hx2 & Hm12 & Hs12).
    destruct (ps_obj _ _ _ H23 x o2 Hx2) as (o3 & Hx3 & Hm23 & Hs23).
    exists o3. split; [done|]. split; [by eapply mono_trans|].
    intros HX. eapply obj_step_trans; eauto.
  - intros x o1 HX Hx1 Ho1 Hab3.
    destruct (ps_obj _ _ _ H12 x o1 Hx1) as (o2 & Hx2 & Hm12 & Hs12).
    destruct (aborted o2) eqn:Ho2.
    + destruct (ps_closure _ _ _ H12 x o1 HX Hx1 Ho1) as [Hl Hd].
      { by rewrite (is_aborted_Some _ _ _ Hx2). }
      split.
      * intros pre l post t Hin Hq Hcb Hlt. eapply pstep_is_aborted; eauto.
      * intros d Hsrc Hin Hlt. eapply pstep_is_aborted; eauto.
    + assert (o2 = o1) as -> by (apply obj_step_pending; auto).
      rewrite <- (ps_length _ _ _ H12).
      by apply (ps_closure _ _ _ H23 x o1 HX Hx2 Ho1).
  - intros x o1 HX Hx1 Hc1 Ho1 Hab3.
    destruct (ps_obj _ _ _ H12 x o1 Hx1) as (o2 & Hx2 & Hm12 & Hs12).
    destruct (aborted o2) eqn:Ho2.
    + destruct (ps_cause _ _ _ H12 x o1 HX Hx1 Hc1 Ho1)
        as (s & os & Hs & Hos & Hsrc & Hin & Habs).
      { by rewrite (is_aborted_Some _ _ _ Hx2). }
      exists s, os. repeat split; try done. eapply pstep_is_aborted; eauto.
    + assert (o2 = o1) as -> by (apply obj_step_pending; auto).
      destruct (ps_cause _ _ _ H23 x o1 HX Hx2 Hc1 Ho1 Hab3)
        as (s & os2 & Hs2 & Hos2 & Hsrc2 & Hin & Habs).
      destruct (pstep_pending_back _ _ _ _ _ H12 Hs2 Hos2)
        as (os & Hs & Hos & (Hst & _)).
      destruct Hst as (_ & _ & _ & Hsrc & Hdep).
      exists s, os. repeat split; try done; congruence.
Qed.

(** An edit of an object that is in the middle of its abort. *)
Lemma pstep_local X h (x : ref) (o o' : sigobj) :
  x ∈ X → h !! x = Some o → mono o o' → pstep X h (<[x := o']> h).
Proof.
  intros HX Hx Hm. pose proof (lookup_lt_Some _ _ _ Hx) as Hlt.
  assert (∀ y oy, y ∉ X → h !! y = Some oy → aborted oy = false →
            is_aborted y (<[x := o']> h) = true → False) as Hno.
  { intros y oy Hy Hyo Hoy Hab.
    assert (y ≠ x) as Hne by (intros ->; done).
    unfold is_aborted, get_aborted in Hab.
    rewrite list_lookup_insert_ne in Hab by done.
    rewrite Hyo in Hab. unfold aborted in Hoy. congruence. }
  split.
  - by rewrite length_insert.
  - intros y oy Hy. destruct (decide (y = x)) as [->|Hne].
    + exists o'. rewrite list_lookup_insert_eq by done.
      assert (oy = o) as -> by congruence. done.
    + exists oy. rewrite list_lookup_insert_ne by done.
      split; [done|]. split; [apply mono_refl | by left].
  - intros y oy Hy Hyo Hoy Hab. destruct (Hno y oy Hy Hyo Hoy Hab).
  - intros y oy Hy Hyo _ Hoy Hab. destruct (Hno y oy Hy Hyo Hoy Hab).
Qed.

Lemma pstep_back X h h' (r : ref) (o' : sigobj) :
  pstep X h h' → h' !! r = Some o' → ∃ o, h !! r = Some o ∧ mono o o'.
Proof.
  intros Hp Hr'.
  assert (r < length h) as Hlt.
  { rewrite <- (ps_length _ _ _ Hp). by eapply lookup_lt_Some. }
  destruct (lookup_lt_is_Some_2 _ _ Hlt) as [o Hr].
  destruct (ps_obj _ _ _ Hp r o Hr) as (o2 & Hr2 & Hm & _).
  exists o. split; [done|]. congruence.
Qed.

Lemma pstep_controller_signal X h h' (r : ref) :
  pstep X h h' → controller_signal h r → controller_signal h' r.
Proof.
  intros Hp (o & Hr & Hsrc).
  destruct (ps_obj _ _ _ Hp r o Hr) as (o' & Hr' & ((_&_&_&Hs&_) & _) & _).
  exists o'. split; [done | congruence].
Qed.

Lemma pstep_wf X h h' : pstep X h h' → wf h → wf h'.
Proof.
  intros Hp [Hl Hd]. split.
  - intros x o' l t Hx' Hin Hcb.
    destruct (pstep_back _ _ _ _ _ Hp Hx') as (o & Hx & (_ & Hsub & _)).
    eapply pstep_controller_signal; [done|]. eapply Hl; eauto.
  - intros s os' d Hs' Hin.
    destruct (pstep_back _ _ _ _ _ Hp Hs') as (os & Hs & ((_&_&_&_&Hdep) & _)).
    rewrite Hdep in Hin.
    destruct (Hd s os d Hs Hin) as (od & ss & Hdo & Hsrc & Hss).
    destruct (ps_obj _ _ _ Hp d od Hdo) as (od' & Hd' & ((_&_&_&Hs2&_) & _) & _).
    exists od', ss. split; [done|]. split; [congruence | done].
Qed.

(** Counting the pending signals. *)
Lemma pending_count_le_length h : pending_count h ≤ length h.
Proof. apply length_filter. Qed.

Lemma pending_count_Forall2 h h' :
  Forall2 (λ o o', aborted o = true → aborted o' = true) h h' →
  pending_count h' ≤ pending_count h.
Proof.
  unfold pending_count. induction 1 as [|o o' h h' Ho _ IH]; [done|].
  rewrite !filter_cons. destruct (aborted o) eqn:Hab.
  - rewrite Ho by done.
    repeat case_decide; try done. 
  - repeat case_decide; simpl; try done; lia.
Qed.

Lemma pstep_pending_count X h h' :
  pstep X h h' → pending_count h' ≤ pending_count h.
Proof.
  intros Hp. apply pending_count_Forall2.
  apply Forall2_same_length_lookup. split.
  - symmetry. apply (ps_length _ _ _ Hp).
  - intros i o o' Hi Hi'.
    destruct (ps_obj _ _ _ Hp i o Hi) as (o2 & Hi2 & (_ & _ & Hm & _) & _).
    assert (o2 = o') as <- by congruence. done.
Qed.

Lemma pending_count_insert h (r : ref) (o o' : sigobj) :
  h !! r = Some o → aborted o = false → aborted o' = true →
  S (pending_count (<[r := o']> h)) = pending_count h.
Proof.
  intros Hr Ho Ho'. pose proof (lookup_lt_Some _ _ _ Hr) as Hlt.
  rewrite insert_take_drop by done.
  rewrite <- (take_drop_middle h r o Hr) at 3.
  unfold pending_count. rewrite !filter_app, !filter_cons, !length_app.
  rewrite decide_False by congruence. rewrite decide_True by done.
  simpl. lia.
Qed.

End Progress.

(** ** The "signal abort" algorithm *)

Lemma aborted_set_aborted (o : sigobj) : aborted (set_aborted o) = true.
Proof. done. Qed.

Lemma mono_set_aborted (o : sigobj) : mono o (set_aborted o).
Proof. split; [by repeat split|]. split; [done|]. split; [done | simpl; lia]. Qed.

Lemma mono_count_event (o : sigobj) : mono o (count_event o).
Proof. split; [by repeat split|]. split; [done|]. split; [done | simpl; lia]. Qed.

Lemma mono_with_listeners (o : sigobj) (ls : list listener) :
  ls ⊆ s_listeners o → mono o (with_listeners o ls).
Proof. intros Hls. split; [by repeat split|]. split; [done|]. split; [done | simpl; lia]. Qed.

Lemma mark_dependents_spec (ds : list ref) (h : heap) (marked : list ref) (h' : heap) :
  mark_dependents ds h = (marked, h') →
  length h' = length h
  ∧ (∀ x ox, h !! x = Some ox →
       h' !! x = Some (if decide (x ∈ marked) then set_aborted ox else ox))
  ∧ NoDup marked
  ∧ (∀ x, x ∈ marked → x ∈ ds ∧ ∃ ox, h !! x = Some ox ∧ aborted ox = false)
  ∧ (∀ d, d ∈ ds → d < length h → is_aborted d h' = true).
Proof.
  revert h marked h'. induction ds as [|d ds IH]; intros h marked h' Hm; simpl in Hm.
  { injection Hm as <- <-. split; [done|]. split.
    { intros x ox Hx. rewrite decide_False; [done | set_solver]. }
    split; [constructor|]. split; [set_solver | set_solver]. }
  assert (∀ marked h',
    mark_dependents ds h = (marked, h') → is_aborted d h = true ∨ h !! d = None →
    length h' = length h
    ∧ (∀ x ox, h !! x = Some ox →
         h' !! x = Some (if decide (x ∈ marked) then set_aborted ox else ox))
    ∧ NoDup marked
    ∧ (∀ x, x ∈ marked → x ∈ d :: ds ∧ ∃ ox, h !! x = Some ox ∧ aborted ox = false)
    ∧ (∀ d', d' ∈ d :: ds → d' < length h → is_aborted d' h' = true)) as Hskip.
  { clear marked h' Hm. intros marked h' Hm Hd.
    destruct (IH _ _ _ Hm) as (Hlen & Hobj & Hnd & Hin & Hab).
    split; [done|]. split; [done|]. split; [done|]. split.
    - intros x Hx. destruct (Hin x Hx) as [? ?]. split; [by apply elem_of_cons; right | done].
    - intros d' Hd' Hlt. apply elem_of_cons in Hd' as [-> | Hd']; [|by apply Hab].
      destruct Hd as [Hd | Hd]; [|apply lookup_ge_None in Hd; lia].
      destruct (is_aborted_valid _ _ Hd) as (o & Ho & Hoa).
      rewrite (is_aborted_Some _ _ _ (Hobj _ _ Ho)).
      by destruct (decide _). }
  destruct (h !! d) as [o|] eqn:Hd; [|by apply Hskip; [|right]].
  destruct (truthy (s_aborted o)) eqn:Hoa.
  { apply Hskip; [done|]. left. by rewrite (is_aborted_Some _ _ _ Hd). }
  clear Hskip.
  destruct (mark_dependents ds (<[d := set_aborted o]> h)) as [marked' h''] eqn:Hrec.
  injection Hm as <- <-.
  pose proof (lookup_lt_Some _ _ _ Hd) as Hlt.
  destruct (IH _ _ _ Hrec) as (Hlen & Hobj & Hnd & Hin & Hab).
  rewrite length_insert in Hlen, Hab.
  assert (d ∉ marked') as Hdm.
  { intros Hdin. destruct (Hin d Hdin) as (_ & ox & Hox & Hoxa).
    rewrite list_lookup_insert_eq in Hox by done. by injection Hox as <-. }
  split; [done|]. split.
  { intros x ox Hx. destruct (decide (x = d)) as [->|Hne].
    - assert (ox = o) as -> by congruence.
      rewrite (Hobj d (set_aborted o)) by by rewrite list_lookup_insert_eq.
      rewrite decide_False by done. rewrite decide_True by (apply elem_of_cons; by left). done.
    - rewrite (Hobj x ox) by by rewrite list_lookup_insert_ne.
      f_equal. destruct (decide (x ∈ marked')).
      + by rewrite decide_True by (apply elem_of_cons; by right).
      + by rewrite decide_False by by apply not_elem_of_cons. }
  split; [by constructor|]. split.
  { intros x Hx. apply elem_of_cons in Hx as [-> | Hx].
    - split; [by apply elem_of_cons; left|]. by exists o.
    - destruct (Hin x Hx) as (Hxds & ox & Hox & Hoxa).
      split; [by apply elem_of_cons; right|].
      exists ox. split; [|done].
      rewrite list_lookup_insert_ne in Hox; [done|]. by intros ->. }
  intros d' Hd' Hlt'. apply elem_of_cons in Hd' as [-> | Hd']; [|by apply Hab].
  rewrite (is_aborted_Some _ _ _ (Hobj d (set_aborted o) ltac:(by rewrite list_lookup_insert_eq))).
  by destruct (decide _).
Qed.

Lemma mark_dependents_pstep (X ds : list ref) (h : heap) (marked : list ref) (h' : heap) :
  mark_dependents ds h = (marked, h') → marked ⊆ X → pstep X h h'.
Proof.
  intros Hm HX.
  destruct (mark_dependents_spec _ _ _ _ Hm) as (Hlen & Hobj & _ & _ & _).
  assert (∀ y oy, y ∉ X → h !! y = Some oy → aborted oy = false →
            is_aborted y h' = true → False) as Hno.
  { intros y oy Hy Hyo Hoy Hab.
    rewrite (is_aborted_Some _ _ _ (Hobj _ _ Hyo)) in Hab.
    rewrite decide_False in Hab by set_solver. congruence. }
  split; [done| | |].
  - intros x ox Hx. eexists. split; [by apply Hobj|].
    destruct (decide (x ∈ marked)).
    + split; [apply mono_set_aborted|]. intros Hx'. set_solver.
    + split; [apply mono_refl | by left].
  - intros y oy Hy Hyo Hoy Hab. destruct (Hno y oy Hy Hyo Hoy Hab).
  - intros y oy Hy Hyo _ Hoy Hab. destruct (Hno y oy Hy Hyo Hoy Hab).
Qed.

Section Nested.

(** The aborts that callbacks run, with what is known of them. *)
Variable fuel : nat.
Hypothesis nested_ok :
  ∀ r h, pending_count h < fuel → wf h →
    (∀ o, h !! r = Some o → s_sources o = None) →
    pstep [] h (signal_abort fuel r h)
    ∧ (r < length h → is_aborted r (signal_abort fuel r h) = true).

(** The objects in [L] are in the middle of their abort, [x] among them. *)
Variable L : list ref.

Lemma nested_abort_frame (t : ref) (hk : heap) :
  wf hk → pending_count hk < fuel →
  (∀ y, y ∈ L → is_aborted y hk = true) →
  controller_signal hk t →
  let hk' := signal_abort fuel t hk in
  pstep L hk hk'
  ∧ (∀ y, y ∈ L → hk' !! y = hk !! y)
  ∧ is_aborted t hk' = true.
Proof.
  intros Hwf Hfuel HL (ot & Ht & Hsrc) hk'.
  destruct (nested_ok t hk Hfuel Hwf) as [Hp Hab].
  { intros o Ho. congruence. }
  fold hk' in Hp, Hab. split; [|split].
  - eapply pstep_weaken; [|exact Hp]. set_solver.
  - intros y Hy. destruct (is_aborted_valid _ _ (HL y Hy)) as (oy & Hyo & Hoy).
    destruct (ps_obj _ _ _ Hp y oy Hyo) as (oy' & Hyo' & _ & Hstep).
    rewrite Hyo, Hyo'. f_equal. apply obj_step_aborted; [|done].
    apply Hstep. set_solver.
  - apply Hab. by eapply lookup_lt_Some.
Qed.

Lemma dispatch_spec (x : ref) (ls : list listener) (hk : heap) :
  x ∈ L →
  wf hk → pending_count hk < fuel →
  (∀ y, y ∈ L → is_aborted y hk = true) →
  (∀ l t, l ∈ ls → l_callback l = OnAbort t → controller_signal hk t) →
  let hk' := dispatch (signal_abort fuel) x ls hk in
  pstep L hk hk'
  ∧ (∀ y, y ∈ L → y ≠ x → hk' !! y = hk !! y)
  ∧ (∀ ox, hk !! x = Some ox →
       ∃ ox', hk' !! x = Some ox' ∧ s_fired ox' = s_fired ox)
  ∧ (∀ pre l post t, ls = pre ++ l :: post → quiet pre →
       l_callback l = OnAbort t → is_aborted t hk' = true).
Proof.
  intros Hx. revert hk. induction ls as [|l ls IH]; intros hk Hwf Hfuel HL Hctl;
    cbn [dispatch].
  { split; [apply pstep_refl|]. split; [done|]. split; [eauto|].
    intros pre l post t Hl. by destruct pre. }
  (* removing a once-listener from [x] *)
  set (hk1 := if l_once l then remove_listener x l hk else hk).
  assert (pstep L hk hk1
          ∧ (∀ y, y ≠ x → hk1 !! y = hk !! y)
          ∧ (∀ ox, hk !! x = Some ox →
               ∃ ox', hk1 !! x = Some ox' ∧ s_fired ox' = s_fired ox))
    as (Hp1 & Hframe1 & Hx1).
  { unfold hk1. destruct (l_once l); [|split; [apply pstep_refl | eauto]].
    unfold remove_listener. destruct (hk !! x) as [ox|] eqn:Hox;
      [|split; [apply pstep_refl|]; split; [done|]; by rewrite Hox].
    split; [|split].
    - eapply pstep_local; [done..|]. apply mono_with_listeners.
      intros l' Hl'. by apply list_elem_of_filter in Hl' as [_ ?].
    - intros y Hy. by rewrite list_lookup_insert_ne.
    - intros ox' [= <-]. eexists.
      rewrite list_lookup_insert_eq by by eapply lookup_lt_Some. done. }
  clearbody hk1.
  assert (wf hk1) as Hwf1 by by eapply pstep_wf.
  assert (pending_count hk1 < fuel) as Hfuel1.
  { pose proof (pstep_pending_count _ _ _ Hp1). lia. }
  assert (∀ y, y ∈ L → is_aborted y hk1 = true) as HL1.
  { intros y Hy. eapply pstep_is_aborted; eauto. }
  (* running the callback *)
  destruct (run_callback (signal_abort fuel) (l_callback l) hk1)
    as [res hk2] eqn:Hrun.
  assert (pstep L hk1 hk2
          ∧ (∀ y, y ∈ L → hk2 !! y = hk1 !! y)
          ∧ (∀ t, l_callback l = OnAbort t → is_aborted t hk2 = true))
    as (Hp2 & Hframe2 & Hab2).
  { unfold run_callback in Hrun.
    destruct (l_callback l) as [t|k st [e|]] eqn:Hcb; injection Hrun as <- <-.
    - destruct (nested_abort_frame t hk1 Hwf1 Hfuel1 HL1) as (? & ? & ?).
      { eapply pstep_controller_signal; [done|]. eapply Hctl; [|done].
        apply elem_of_cons. by left. }
      split; [done|]. split; [done|]. by intros t' [= <-].
    - split; [apply pstep_refl|]. done.
    - split; [apply pstep_refl|]. done. }
  clear Hrun.
  assert (pstep L hk hk2) as Hp02 by by eapply pstep_trans.
  assert (∀ ox, hk !! x = Some ox →
            ∃ ox', hk2 !! x = Some ox' ∧ s_fired ox' = s_fired ox) as Hx2.
  { intros ox Hox. destruct (Hx1 ox Hox) as (ox1 & Hox1 & Hf1).
    rewrite <- (Hframe2 x Hx) in Hox1. eauto. }
  destruct (stops_propagation (l_callback l)) eqn:Hstop.
  { (* the callback has stopped the propagation *)
    split; [done|]. split; [|split; [done|]].
    - intros y Hy Hne. rewrite Hframe2, Hframe1; done.
    - intros pre l' post t Hls Hq Hcb. destruct pre as [|l0 pre].
      + injection Hls as <- <-. by apply Hab2.
      + injection Hls as <- _. rewrite (Hq l) in Hstop; [done|].
        apply elem_of_cons. by left. }
  destruct (IH hk2) as (Hp3 & Hframe3 & Hx3 & Hab3).
  { by eapply pstep_wf. }
  { pose proof (pstep_pending_count _ _ _ Hp2). lia. }
  { intros y Hy. eapply pstep_is_aborted; eauto. }
  { intros l' t Hl' Hcb. eapply pstep_controller_signal; [done|].
    eapply Hctl; [|done]. apply elem_of_cons. by right. }
  split; [by eapply pstep_trans|]. split; [|split].
  - intros y Hy Hne. rewrite Hframe3, Hframe2, Hframe1; done.
  - intros ox Hox. destruct (Hx2 ox Hox) as (ox2 & Hox2 & Hf2).
    destruct (Hx3 ox2 Hox2) as (ox3 & Hox3 & Hf3).
    exists ox3. split; [done | congruence].
  - intros pre l' post t Hls Hq Hcb. destruct pre as [|l0 pre].
    + injection Hls as <- <-. eapply pstep_is_aborted; [exact Hp3|]. by apply Hab2.
    + injection Hls as <- ->. eapply Hab3; [done| |done].
      intros l1 Hl1. apply Hq. apply elem_of_cons. by right.
Qed.

Lemma fire_abort_spec (x : ref) (hk : heap) (ox : sigobj) :
  x ∈ L → hk !! x = Some ox →
  wf hk → pending_count hk < fuel →
  (∀ y, y ∈ L → is_aborted y hk = true) →
  let hk' := fire_abort (signal_abort fuel) hk x in
  pstep L hk hk'
  ∧ (∀ y, y ∈ L → y ≠ x → hk' !! y = hk !! y)
  ∧ (∃ ox', hk' !! x = Some ox' ∧ s_fired ox' = S (s_fired ox))
  ∧ (∀ pre l post t, s_listeners ox = pre ++ l :: post → quiet pre →
       l_callback l = OnAbort t → is_aborted t hk' = true).
Proof.
  intros Hx Hox Hwf Hfuel HL. unfold fire_abort. rewrite Hox.
  pose proof (lookup_lt_Some _ _ _ Hox) as Hlt.
  set (hk1 := <[x := count_event ox]> hk).
  assert (pstep L hk hk1) as Hp1.
  { eapply pstep_local; [done..|]. apply mono_count_event. }
  destruct (dispatch_spec x (s_listeners ox) hk1 Hx) as (Hp2 & Hframe2 & Hx2 & Hab2).
  { by eapply pstep_wf. }
  { pose proof (pstep_pending_count _ _ _ Hp1). lia. }
  { intros y Hy. eapply pstep_is_aborted; eauto. }
  { intros l t Hl Hcb. eapply pstep_controller_signal; [done|].
    eapply (wf_listeners _ Hwf); eauto. }
  split; [by eapply pstep_trans|]. split; [|split].
  - intros y Hy Hne. rewrite Hframe2 by done. unfold hk1.
    by rewrite list_lookup_insert_ne.
  - destruct (Hx2 (count_event ox)) as (ox' & Hox' & Hf).
    { unfold hk1. by rewrite list_lookup_insert_eq. }
    exists ox'. done.
  - done.
Qed.

Lemma fire_all_spec (todo : list ref) (hk : heap) :
  NoDup todo → todo ⊆ L →
  wf hk → pending_count hk < fuel →
  (∀ y, y ∈ L → is_aborted y hk = true) →
  let hk' := fold_left (fire_abort (signal_abort fuel)) todo hk in
  pstep L hk hk'
  ∧ (∀ y, y ∈ L → y ∉ todo → hk' !! y = hk !! y)
  ∧ (∀ x ox, x ∈ todo → hk !! x = Some ox →
       ∃ ox', hk' !! x = Some ox' ∧ s_fired ox' = S (s_fired ox)
              ∧ ∀ pre l post t, s_listeners ox = pre ++ l :: post → quiet pre →
                  l_callback l = OnAbort t → is_aborted t hk' = true).
Proof.
  revert hk. induction todo as [|x todo IH]; intros hk Hnd Hsub Hwf Hfuel HL; simpl.
  { split; [apply pstep_refl|]. split; [done|].
    intros x ox Hx. by apply elem_of_nil in Hx. }
  apply NoDup_cons in Hnd as [Hxt Hnd].
  assert (x ∈ L) as HxL by (apply Hsub, elem_of_cons; by left).
  destruct (is_aborted_valid _ _ (HL x HxL)) as (ox & Hox & _).
  destruct (fire_abort_spec x hk ox HxL Hox Hwf Hfuel HL)
    as (Hp1 & Hframe1 & (ox1 & Hox1 & Hf1) & Hab1).
  set (hk1 := fire_abort (signal_abort fuel) hk x) in *. clearbody hk1.
  destruct (IH hk1) as (Hp2 & Hframe2 & Hdone2).
  { done. } { intros y Hy. apply Hsub, elem_of_cons. by right. }
  { by eapply pstep_wf. }
  { pose proof (pstep_pending_count _ _ _ Hp1). lia. }
  { intros y Hy. eapply pstep_is_aborted; eauto. }
  split; [by eapply pstep_trans|]. split.
  - intros y Hy Hny. apply not_elem_of_cons in Hny as [Hne Hny].
    rewrite Hframe2, Hframe1; done.
  - intros y oy Hy Hoy. apply elem_of_cons in Hy as [-> | Hy].
    + assert (oy = ox) as -> by congruence.
      exists ox1. rewrite Hframe2 by done. split; [done|]. split; [done|].
      intros pre l post t Hl Hq Hcb. eapply pstep_is_aborted; eauto.
    + assert (y ≠ x) as Hne by (intros ->; done).
      apply (Hdone2 y oy Hy).
      rewrite Hframe1; [done | apply Hsub, elem_of_cons; by right | done].
Qed.

End Nested.

(** With fuel above the number of pending signals, "signal abort" on a
    controller signal of a well-formed store is a complete abort step, and
    the signal ends up triggered. *)
Lemma signal_abort_spec (fuel : nat) (r : ref) (h : heap) :
  pending_count h < fuel → wf h →
  (∀ o, h !! r = Some o → s_sources o = None) →
  pstep [] h (signal_abort fuel r h)
  ∧ (r < length h → is_aborted r (signal_abort fuel r h) = true).
Proof.
  revert r h. induction fuel as [|fuel IH]; intros r h Hfuel Hwf Hctl; [lia|].
  simpl. destruct (h !! r) as [o|] eqn:Hr.
  2:{ split; [apply pstep_refl|]. intros Hlt. apply lookup_ge_None in Hr. lia. }
  destruct (truthy (s_aborted o)) eqn:Hoa.
  { split; [apply pstep_refl|]. intros _. by rewrite (is_aborted_Some _ _ _ Hr). }
  pose proof (lookup_lt_Some _ _ _ Hr) as Hlt.
  set (h1 := <[r := set_aborted o]> h).
  destruct (mark_dependents (s_dependents o) h1) as [marked h2] eqn:Hmark.
  set (L := r :: marked).
  destruct (mark_dependents_spec _ _ _ _ Hmark) as (Hlen2 & Hobj2 & Hnd & Hmk & Hdeps).
  assert (h1 !! r = Some (set_aborted o)) as Hr1.
  { unfold h1. by rewrite list_lookup_insert_eq. }
  assert (r ∉ marked) as Hrm.
  { intros Hin. destruct (Hmk r Hin) as (_ & ox & Hox & Hoxa).
    rewrite Hr1 in Hox. by injection Hox as <-. }
  assert (pstep L h h1) as Hp1.
  { eapply pstep_local; [|done|apply mono_set_aborted]. apply elem_of_cons. by left. }
  assert (pstep L h1 h2) as Hp2.
  { eapply mark_dependents_pstep; [done|]. intros y Hy. apply elem_of_cons. by right. }
  assert (pending_count h2 < fuel) as Hfuel2.
  { pose proof (pending_count_insert h r o (set_aborted o) Hr Hoa eq_refl).
    pose proof (pstep_pending_count _ _ _ Hp2). fold h1 in H. lia. }
  assert (∀ x, x ∈ L →
            ∃ ox, h !! x = Some ox ∧ aborted ox = false
                  ∧ h2 !! x = Some (set_aborted ox)) as HL.
  { intros x Hx. apply elem_of_cons in Hx as [-> | Hx].
    - exists o. split; [done|]. split; [done|].
      rewrite (Hobj2 _ _ Hr1). by rewrite decide_False.
    - destruct (Hmk x Hx) as (_ & ox & Hox & Hoxa).
      exists ox. split; [|split; [done|]].
      + unfold h1 in Hox. rewrite list_lookup_insert_ne in Hox; [done|].
        intros ->. done.
      + rewrite (Hobj2 _ _ Hox). by rewrite decide_True. }
  assert (wf h2) as Hwf2 by (eapply pstep_wf; [|eapply pstep_wf]; eauto).
  destruct (fire_all_spec fuel IH L L h2) as (Hp3 & _ & Hdone).
  { constructor; done. } { done. } { done. } { done. }
  { intros y Hy. destruct (HL y Hy) as (oy & _ & _ & Hy2).
    by rewrite (is_aborted_Some _ _ _ Hy2). }
  set (h3 := fold_left (fire_abort (signal_abort fuel)) L h2) in *.
  change (pstep [] h h3 ∧ (r < length h → is_aborted r h3 = true)).
  clearbody h3.
  assert (pstep L h h3) as Hp.
  { eapply pstep_trans; [|exact Hp3]. by eapply pstep_trans. }
  assert (∀ x, x ∈ L → is_aborted x h3 = true) as Hab3.
  { intros x Hx. destruct (HL x Hx) as (ox & _ & _ & Hx2).
    eapply pstep_is_aborted; [exact Hp3|]. by rewrite (is_aborted_Some _ _ _ Hx2). }
  split; [|intros _; apply Hab3, elem_of_cons; by left].
  split.
  - apply (ps_length _ _ _ Hp).
  - intros x ox Hx. destruct (ps_obj _ _ _ Hp x ox Hx) as (ox' & Hx' & Hm & Hs).
    exists ox'. split; [done|]. split; [done|]. intros _.
    destruct (decide (x ∈ L)) as [HxL | HxL]; [|by apply Hs].
    right. destruct (HL x HxL) as (ox0 & Hx0 & Hoxa & Hx2).
    assert (ox0 = ox) as -> by congruence.
    destruct (Hdone x _ HxL Hx2) as (ox3 & Hx3 & Hf & _).
    assert (ox3 = ox') as -> by congruence.
    split; [done|]. split.
    { rewrite <- (is_aborted_Some _ _ _ Hx'). by apply Hab3. }
    split; [done|]. destruct Hm as (? & ? & _). done.
  - intros x ox _ Hx Hoxa Hab.
    destruct (decide (x ∈ L)) as [HxL | HxL];
      [|by apply (ps_closure _ _ _ Hp x ox HxL Hx Hoxa Hab)].
    destruct (HL x HxL) as (ox0 & Hx0 & _ & Hx2).
    assert (ox0 = ox) as -> by congruence.
    destruct (Hdone x _ HxL Hx2) as (ox3 & Hx3 & Hf & Htargets).
    split; [intros pre l post t Hl Hq Hcb _; by eapply Htargets|].
    intros d Hsrc Hd Hdlt. apply elem_of_cons in HxL as [-> | HxL].
    + assert (ox = o) as -> by congruence.
      eapply pstep_is_aborted; [exact Hp3|]. apply Hdeps; [done|].
      unfold h1. by rewrite length_insert.
    + destruct (Hmk x HxL) as (Hxd & _).
      destruct (wf_dependents _ Hwf r o x Hr Hxd) as (ox1 & ss & Hx1 & Hss & _).
      congruence.
  - intros x ox _ Hx Hcomp Hoxa Hab.
    destruct (decide (x ∈ L)) as [HxL | HxL];
      [|by apply (ps_cause _ _ _ Hp x ox HxL Hx Hcomp Hoxa Hab)].
    apply elem_of_cons in HxL as [-> | HxL].
    + assert (ox = o) as -> by congruence.
      unfold is_composite in Hcomp. by rewrite (Hctl o eq_refl) in Hcomp.
    + destruct (Hmk x HxL) as (Hxd & _).
      exists r, o. split; [done|]. split; [done|].
      split; [by apply Hctl|]. split; [done|].
      apply Hab3, elem_of_cons. by left.
Qed.

(** [abort] has fuel enough. *)
Lemma abort_spec (r : ref) (h : heap) :
  wf h → (∀ o, h !! r = Some o → s_sources o = None) →
  pstep [] h (abort r h) ∧ (r < length h → is_aborted r (abort r h) = true).
Proof.
  intros Hwf Hctl. apply signal_abort_spec; [|done..].
  pose proof (pending_count_le_length h). lia.
Qed.

(** Triggering a controller signal keeps the store well-formed. *)
Lemma abort_wf (r : ref) (h : heap) :
  wf h → controller_signal h r → wf (abort r h).
Proof.
  intros Hwf (o & Hr & Hsrc). eapply pstep_wf; [|done].
  apply abort_spec; [done|]. intros o' Ho'. congruence.
Qed.

(** ** A derived signal follows its inputs *)

Lemma pstep_pending_same (h h' : heap) (r : ref) (o' : sigobj) :
  pstep [] h h' → h' !! r = Some o' → aborted o' = false → h !! r = Some o'.
Proof.
  intros Hp Hr' Ho'.
  destruct (pstep_pending_back _ _ _ _ _ Hp Hr' Ho') as (o & Hr & _ & _).
  destruct (ps_obj _ _ _ Hp r o Hr) as (o2 & Hr2 & _ & Hs).
  assert (o2 = o') as -> by congruence.
  rewrite Hr. f_equal. symmetry. apply obj_step_pending; [|done].
  apply Hs. by apply not_elem_of_nil.
Qed.

Lemma is_aborted_false_back (h h' : heap) (r : ref) :
  pstep [] h h' → is_aborted r h' = false → is_aborted r h = false.
Proof.
  intros Hp Hr'. destruct (is_aborted r h) eqn:Hr; [|done].
  by rewrite (pstep_is_aborted _ _ _ _ Hp Hr) in Hr'.
Qed.

Lemma follows_triggers (h h' : heap) (c x : ref) :
  pstep [] h h' → c < length h →
  is_aborted x h = false → follows h c x → is_aborted x h' = true →
  is_aborted c h' = true.
Proof.
  intros Hp Hc Hx Hfol Hx'.
  destruct (is_aborted_valid _ _ Hx') as (ox' & Hox' & _).
  destruct (pstep_back _ _ _ _ _ Hp Hox') as (ox & Hox & _).
  rewrite (is_aborted_Some _ _ _ Hox) in Hx.
  pose proof (not_elem_of_nil x) as Hnil.
  destruct Hfol as [(ox0 & pre & l & post & Hox0 & Hl & Hq & Hcb) | [Hsrc Hdep]].
  - assert (ox0 = ox) as -> by congruence.
    destruct (ps_closure _ _ _ Hp x ox Hnil Hox Hx Hx') as [Hls _]. eauto.
  - destruct (s_sources ox) as [ss|] eqn:Hss.
    + destruct (ps_cause _ _ _ Hp x ox Hnil Hox) as (s & os & Hs & Hos & Hsn & Hin & Hs');
        [by unfold is_composite; rewrite Hss | done | done |].
      destruct (ps_closure _ _ _ Hp s os (not_elem_of_nil s) Hs Hos Hs') as [_ Hds].
      apply Hds; [done | by eapply Hdep | done].
    + destruct (ps_closure _ _ _ Hp x ox Hnil Hox Hx Hx') as [_ Hds].
      apply Hds; [done | by apply Hsrc | done].
Qed.

Lemma follows_stays (h h' : heap) (c x : ref) :
  pstep [] h h' → is_aborted x h' = false → x < length h →
  follows h c x → follows h' c x.
Proof.
  intros Hp Hx' Hxlt Hfol.
  assert (x < length h') as Hxlt' by by rewrite (ps_length _ _ _ Hp).
  destruct (lookup_lt_is_Some_2 _ _ Hxlt') as [ox' Hox'].
  rewrite (is_aborted_Some _ _ _ Hox') in Hx'.
  pose proof (pstep_pending_same _ _ _ _ Hp Hox' Hx') as Hox.
  destruct Hfol as [(ox0 & pre & l & post & Hox0 & Hl & Hq & Hcb) | [Hsrc Hdep]].
  - left. assert (ox0 = ox') as -> by congruence. by exists ox', pre, l, post.
  - right. split.
    + intros ox2 Hox2. assert (ox2 = ox') as -> by congruence. by apply Hsrc.
    + intros s os' Hs' Hos'. eapply Hdep; [|done].
      by eapply pstep_pending_same.
Qed.

Lemma derived_step (h h' : heap) (a b c : ref) :
  pstep [] h h' → a < length h → b < length h →
  derived h a b c → derived h' a b c.
Proof.
  intros Hp Ha Hb [Hc Hfired Hpend]. split.
  - by rewrite (ps_length _ _ _ Hp).
  - destruct (lookup_lt_is_Some_2 _ _ Hc) as [oc Hoc].
    destruct (ps_obj _ _ _ Hp c oc Hoc) as (oc' & Hoc' & _ & Hs).
    unfold get_fired in *. rewrite (is_aborted_Some _ _ _ Hoc) in Hfired.
    rewrite (is_aborted_Some _ _ _ Hoc'). rewrite Hoc in Hfired. rewrite Hoc'.
    destruct (Hs (not_elem_of_nil c)) as [-> | (Hoa & Hoa' & Hf & _)]; [done|].
    rewrite Hoa in Hfired. rewrite Hoa'. lia.
  - intros Hc'.
    destruct (Hpend (is_aborted_false_back _ _ _ Hp Hc')) as [[Hxa Hfa] [Hxb Hfb]].
    assert (∀ x, x < length h → is_aborted x h = false → follows h c x →
              is_aborted x h' = false ∧ follows h' c x) as Hone.
    { intros x Hxlt Hx Hfol.
      assert (is_aborted x h' = false) as Hx'.
      { destruct (is_aborted x h') eqn:Hx'; [|done].
        rewrite (follows_triggers _ _ _ _ Hp Hc Hx Hfol Hx') in Hc'. done. }
      split; [done|]. by eapply follows_stays. }
    split; by apply Hone.
Qed.

Lemma trigger_all_spec (rs : list ref) (h : heap) (a b c : ref) :
  wf h → Forall (controller_signal h) rs →
  a < length h → b < length h →
  derived h a b c →
  ∃ h', trigger_all rs h = (Normal (), h')
        ∧ wf h'
        ∧ derived h' a b c
        ∧ (∀ r, r ∈ rs → is_aborted r h' = true)
        ∧ (∀ r, is_aborted r h = true → is_aborted r h' = true).
Proof.
  revert h. induction rs as [|r rs IH]; intros h Hwf Hrs Ha Hb Hd.
  { exists h. split; [done|]. split; [done|]. split; [done|]. split; [|done].
    intros r Hr. by apply elem_of_nil in Hr. }
  apply Forall_cons in Hrs as [(o & Hr & Hsrc) Hrs].
  destruct (abort_spec r h Hwf) as [Hp Hab].
  { intros o' Ho'. congruence. }
  specialize (Hab (lookup_lt_Some _ _ _ Hr)).
  destruct (IH (abort r h)) as (h' & Hrun & Hwf' & Hd' & Hin' & Hmono').
  { by eapply pstep_wf. }
  { eapply Forall_impl; [exact Hrs|]. intros r'. by apply (pstep_controller_signal [] h). }
  { by rewrite (ps_length _ _ _ Hp). }
  { by rewrite (ps_length _ _ _ Hp). }
  { by eapply derived_step. }
  exists h'. split; [exact Hrun|]. split; [done|]. split; [done|]. split.
  - intros r' Hr'. apply elem_of_cons in Hr' as [-> | Hr']; [by apply Hmono' | by apply Hin'].
  - intros r' Hr'. apply Hmono'. by eapply pstep_is_aborted.
Qed.

(** ** What the combiner builds *)

Lemma controller_signal_app (h : heap) (o : sigobj) (r : ref) :
  controller_signal h r → controller_signal (h ++ [o]) r.
Proof.
  intros (or & Hr & Hsrc). exists or. split; [|done].
  rewrite lookup_app_l; [done | by eapply lookup_lt_Some].
Qed.

Lemma wf_alloc (h : heap) (o : sigobj) :
  wf h → s_listeners o = [] → s_dependents o = [] → wf (h ++ [o]).
Proof.
  intros [Hl Hd] Hnl Hnd. split.
  - intros x ox l t Hx Hin Hcb. apply lookup_app_Some in Hx as [Hx | [_ Hx]].
    + apply controller_signal_app. eauto.
    + apply list_lookup_singleton_Some in Hx as [_ <-].
      rewrite Hnl in Hin. by apply elem_of_nil in Hin.
  - intros s os d Hs Hin. apply lookup_app_Some in Hs as [Hs | [_ Hs]].
    + destruct (Hd s os d Hs Hin) as (od & ss & Hdo & Hsrc & Hss).
      exists od, ss. split; [|done].
      rewrite lookup_app_l; [done | by eapply lookup_lt_Some].
    + apply list_lookup_singleton_Some in Hs as [_ <-].
      rewrite Hnd in Hin. by apply elem_of_nil in Hin.
Qed.

Lemma wf_insert (h : heap) (x : ref) (o o' : sigobj) :
  wf h → h !! x = Some o →
  s_sources o' = s_sources o →
  (∀ l t, l ∈ s_listeners o' → l_callback l = OnAbort t → controller_signal h t) →
  (∀ d, d ∈ s_dependents o' →
     ∃ od ss, h !! d = Some od ∧ s_sources od = Some ss ∧ x ∈ ss) →
  wf (<[x := o']> h).
Proof.
  intros [Hl Hd] Hx Hsrc Hls Hds.
  pose proof (lookup_lt_Some _ _ _ Hx) as Hlt.
  assert (∀ y oy, h !! y = Some oy →
            ∃ oy', <[x := o']> h !! y = Some oy' ∧ s_sources oy' = s_sources oy)
    as Hkeep.
  { intros y oy Hy. destruct (decide (y = x)) as [->|Hne].
    - exists o'. rewrite list_lookup_insert_eq by done. split; [done | congruence].
    - exists oy. by rewrite list_lookup_insert_ne. }
  assert (∀ t, controller_signal h t → controller_signal (<[x := o']> h) t) as Hctl.
  { intros t (ot & Ht & Hts). destruct (Hkeep t ot Ht) as (ot' & Ht' & Hts').
    exists ot'. split; [done | congruence]. }
  assert (∀ s d, (∃ od ss, h !! d = Some od ∧ s_sources od = Some ss ∧ s ∈ ss) →
            ∃ od ss, <[x := o']> h !! d = Some od ∧ s_sources od = Some ss ∧ s ∈ ss)
    as Hdep.
  { intros s d (od & ss & Hdo & Hdsrc & Hin).
    destruct (Hkeep d od Hdo) as (od' & Hdo' & Hds').
    exists od', ss. split; [done|]. split; [congruence | done]. }
  split.
  - intros y oy l t Hy Hin Hcb. apply Hctl.
    destruct (decide (y = x)) as [->|Hne].
    + rewrite list_lookup_insert_eq in Hy by done. injection Hy as <-. eauto.
    + rewrite list_lookup_insert_ne in Hy by done. eauto.
  - intros s os d Hs Hin. apply Hdep.
    destruct (decide (s = x)) as [->|Hne].
    + rewrite list_lookup_insert_eq in Hs by done. injection Hs as <-. eauto.
    + rewrite list_lookup_insert_ne in Hs by done. eauto.
Qed.

Lemma existsb_same_callback (l : listener) (ls : list listener) :
  existsb (same_callback l) ls = true →
  ∃ l', l' ∈ ls ∧ l_callback l' = l_callback l.
Proof.
  induction ls as [|l0 ls IH]; simpl; [done|].
  intros H. apply orb_true_iff in H as [H | H].
  - exists l0. split; [left|]. unfold same_callback in H.
    apply bool_decide_eq_true in H. done.
  - destruct (IH H) as (l' & Hin & Hcb). exists l'. split; [by right | done].
Qed.

Lemma quiet_app (ls ls' : list listener) : quiet ls → quiet ls' → quiet (ls ++ ls').
Proof. intros H H' l Hl. apply elem_of_app in Hl as [Hl | Hl]; auto. Qed.

Lemma quiet_prefix (pre post : list listener) : quiet (pre ++ post) → quiet pre.
Proof. intros H l Hl. apply H, elem_of_app. by left. Qed.

(** Registering the listener [() => controller.abort()] on [x]. *)
Lemma add_listener_spec (h : heap) (x c : ref) (ox : sigobj) :
  wf h → h !! x = Some ox → controller_signal h c →
  let h' := add_listener x {| l_callback := OnAbort c; l_once := true |} h in
  wf h'
  ∧ length h' = length h
  ∧ (∀ y, y ≠ x → h' !! y = h !! y)
  ∧ (∃ ls, h' !! x = Some (with_listeners ox ls)
           ∧ (quiet (s_listeners ox) →
              quiet ls
              ∧ ∃ pre l post, ls = pre ++ l :: post ∧ quiet pre
                              ∧ l_callback l = OnAbort c)).
Proof.
  intros Hwf Hx Hc. unfold add_listener. rewrite Hx.
  pose proof (lookup_lt_Some _ _ _ Hx) as Hlt.
  destruct (existsb _ _) eqn:Hex; simpl.
  - split; [done|]. split; [done|]. split; [done|].
    destruct (existsb_same_callback _ _ Hex) as (l' & Hin & Hcb).
    exists (s_listeners ox). rewrite with_listeners_id. split; [done|].
    intros Hq. split; [done|].
    destruct (list_elem_of_split _ _ Hin) as (pre & post & Hsplit).
    exists pre, l', post. split; [done|]. split; [|done].
    rewrite Hsplit in Hq. by eapply quiet_prefix.
  - split; [|split; [|split]].
    + eapply wf_insert; [done..| |].
      * simpl. intros l t Hl Hcb. apply elem_of_app in Hl as [Hl | Hl].
        -- eapply (wf_listeners _ Hwf); eauto.
        -- apply list_elem_of_singleton in Hl as ->. simpl in Hcb. by injection Hcb as <-.
      * simpl. intros d Hd. eapply (wf_dependents _ Hwf); eauto.
    + by rewrite length_insert.
    + intros y Hy. by rewrite list_lookup_insert_ne.
    + exists (s_listeners ox ++ [{| l_callback := OnAbort c; l_once := true |}]).
      rewrite list_lookup_insert_eq by done.
      split; [done|]. intros Hq. split.
      * apply quiet_app; [done|]. intros l Hl.
        by apply list_elem_of_singleton in Hl as ->.
      * by exists (s_listeners ox), {| l_callback := OnAbort c; l_once := true |}, [].
Qed.

Lemma combine_manually_spec (a b : ref) (h : heap) (oa ob : sigobj) :
  wf h → h !! a = Some oa → h !! b = Some ob →
  s_addEventListener oa = MEventTarget →
  s_addEventListener ob = MEventTarget →
  is_aborted a h = false → is_aborted b h = false →
  ∃ h1, combine_manually a b h = (Normal (Some (length h)), h1)
        ∧ wf h1
        ∧ length h1 = S (length h)
        ∧ h1 !! length h = Some (fresh_signal None)
        ∧ is_aborted a h1 = false
        ∧ is_aborted b h1 = false
        ∧ (quiet (s_listeners oa) → quiet (s_listeners ob) →
           follows h1 (length h) a ∧ follows h1 (length h) b).
Proof.
  intros Hwf Ha Hb Hma Hmb Hna Hnb.
  pose proof (lookup_lt_Some _ _ _ Ha) as Hla.
  pose proof (lookup_lt_Some _ _ _ Hb) as Hlb.
  set (c := length h). set (h0 := h ++ [fresh_signal None]).
  assert (wf h0) as Hwf0 by by apply wf_alloc.
  assert (h0 !! a = Some oa) as Ha0 by (unfold h0; by rewrite lookup_app_l).
  assert (h0 !! b = Some ob) as Hb0 by (unfold h0; by rewrite lookup_app_l).
  assert (h0 !! c = Some (fresh_signal None)) as Hc0.
  { unfold h0, c. rewrite lookup_app_r by done. by rewrite Nat.sub_diag. }
  assert (controller_signal h0 c) as Hctl0 by by eexists.
  destruct (add_listener_spec h0 a c oa Hwf0 Ha0 Hctl0)
    as (Hwf1 & Hlen1 & Hframe1 & (lsa & Ha1 & Hqa1)).
  set (h1 := add_listener a {| l_callback := OnAbort c; l_once := true |} h0) in *.
  assert (∃ ob1, h1 !! b = Some ob1 ∧ s_addEventListener ob1 = MEventTarget
                 ∧ s_aborted ob1 = s_aborted ob
                 ∧ (quiet (s_listeners oa) → quiet (s_listeners ob) →
                    quiet (s_listeners ob1)))
    as (ob1 & Hb1 & Hmb1 & Hab1 & Hqb1).
  { destruct (decide (b = a)) as [->|Hne].
    - eexists. split; [exact Ha1|]. assert (ob = oa) as -> by congruence.
      split; [done|]. split; [done|]. intros Hq _. by apply Hqa1.
    - exists ob. by rewrite Hframe1. }
  assert (controller_signal h1 c) as Hctl1.
  { destruct (decide (c = a)) as [Heq|Hne]; [unfold c in Heq; lia|].
    exists (fresh_signal None). by rewrite Hframe1. }
  destruct (add_listener_spec h1 b c ob1 Hwf1 Hb1 Hctl1)
    as (Hwf2 & Hlen2 & Hframe2 & (lsb & Hb2 & Hqb2)).
  set (h2 := add_listener b {| l_callback := OnAbort c; l_once := true |} h1) in *.
  exists h2. split.
  { unfold combine_manually, bind, new_AbortController, call_addEventListener.
    fold h0 c. rewrite Ha0, Hma. fold h1. by rewrite Hb1, Hmb1. }
  split; [done|]. split.
  { rewrite Hlen2, Hlen1. unfold h0. rewrite length_app. simpl. lia. }
  split.
  { rewrite Hframe2 by (unfold c; lia). rewrite Hframe1 by (unfold c; lia). done. }
  assert (∃ oa2, h2 !! a = Some oa2 ∧ s_aborted oa2 = s_aborted oa
                 ∧ (quiet (s_listeners oa) → quiet (s_listeners ob) →
                    ∃ pre l post, s_listeners oa2 = pre ++ l :: post ∧ quiet pre
                                  ∧ l_callback l = OnAbort c))
    as (oa2 & Ha2 & Haa2 & Hfa2).
  { destruct (decide (a = b)) as [->|Hne].
    - eexists. split; [exact Hb2|]. simpl.
      assert (ob = oa) as -> by congruence. split; [done|].
      intros Hq1 Hq2. apply Hqb2. by apply Hqb1.
    - eexists. rewrite Hframe2 by done. split; [exact Ha1|]. split; [done|].
      intros Hq _. by apply Hqa1. }
  split.
  { rewrite (is_aborted_Some _ _ _ Ha2). unfold aborted. rewrite Haa2.
    by rewrite (is_aborted_Some _ _ _ Ha) in Hna. }
  split.
  { rewrite (is_aborted_Some _ _ _ Hb2). unfold aborted. simpl. rewrite Hab1.
    by rewrite (is_aborted_Some _ _ _ Hb) in Hnb. }
  intros Hq1 Hq2. split; left.
  - destruct (Hfa2 Hq1 Hq2) as (pre & l & post & Hsplit & Hq & Hcb).
    by exists oa2, pre, l, post.
  - destruct Hqb2 as (_ & pre & l & post & Hsplit & Hq & Hcb); [by apply Hqb1|].
    by exists (with_listeners ob1 lsb), pre, l, post.
Qed.

Lemma with_dependents_id (o : sigobj) : with_dependents o (s_dependents o) = o.
Proof. by destruct o. Qed.

Lemma set_add_elem (x y : ref) (l : list ref) : x ∈ set_add y l ↔ x = y ∨ x ∈ l.
Proof.
  unfold set_add. case_bool_decide as Hy.
  - split; [by right|]. intros [-> | ?]; done.
  - rewrite elem_of_app, list_elem_of_singleton. tauto.
Qed.

Lemma fold_set_add_elem (x : ref) (l acc : list ref) :
  x ∈ fold_left (λ acc s, set_add s acc) l acc ↔ x ∈ acc ∨ x ∈ l.
Proof.
  revert acc. induction l as [|y l IH]; intros acc; simpl.
  - rewrite elem_of_nil. tauto.
  - rewrite IH, set_add_elem, elem_of_cons. tauto.
Qed.

(** Registering the dependent [c] with the signals in [todo]. *)
Lemma fold_add_dependent_spec (c : ref) (srcs todo : list ref) (h0 : heap) :
  todo ⊆ srcs → wf h0 →
  (∃ oc, h0 !! c = Some oc ∧ s_sources oc = Some srcs) →
  let h1 := fold_left (add_dependent c) todo h0 in
  wf h1
  ∧ length h1 = length h0
  ∧ ∀ x ox, h0 !! x = Some ox →
      ∃ ds, h1 !! x = Some (with_dependents ox ds)
            ∧ ∀ d, d ∈ ds ↔ d ∈ s_dependents ox ∨ (d = c ∧ x ∈ todo).
Proof.
  revert h0. induction todo as [|s todo IH]; intros h0 Hsub Hwf Hc; cbv zeta.
  { split; [done|]. split; [done|]. intros x ox Hx. exists (s_dependents ox).
    rewrite with_dependents_id. split; [done|]. intros d. rewrite elem_of_nil. tauto. }
  assert (todo ⊆ srcs) as Hsub'
    by (intros y Hy; apply Hsub, elem_of_cons; by right).
  change (fold_left (add_dependent c) (s :: todo) h0)
    with (fold_left (add_dependent c) todo (add_dependent c h0 s)).
  destruct (h0 !! s) as [o|] eqn:Hs.
  2:{ assert (add_dependent c h0 s = h0) as ->
        by (unfold add_dependent; by rewrite Hs).
      destruct (IH h0 Hsub' Hwf Hc) as (Hwf1 & Hlen1 & Hobj1).
      split; [done|]. split; [done|]. intros x ox Hx.
      destruct (Hobj1 x ox Hx) as (ds & Hx1 & Hds). exists ds. split; [done|].
      intros d. rewrite Hds, elem_of_cons.
      assert (x ≠ s) by (intros ->; congruence). tauto. }
  pose proof (lookup_lt_Some _ _ _ Hs) as Hlt.
  set (o' := with_dependents o (set_add c (s_dependents o))).
  assert (add_dependent c h0 s = <[s := o']> h0) as ->
    by (unfold add_dependent; by rewrite Hs).
  destruct Hc as (oc & Hoc & Hsrc).
  destruct (IH (<[s := o']> h0) Hsub') as (Hwf1 & Hlen1 & Hobj1).
  { eapply wf_insert; [done..| |].
    - simpl. intros l t Hl Hcb. eapply (wf_listeners _ Hwf); eauto.
    - simpl. intros d Hd. apply set_add_elem in Hd as [-> | Hd].
      + exists oc, srcs. split; [done|]. split; [done|].
        apply Hsub, elem_of_cons. by left.
      + eapply (wf_dependents _ Hwf); eauto. }
  { destruct (decide (c = s)) as [->|Hne].
    - exists o'. rewrite list_lookup_insert_eq by done. split; [done|].
      simpl. congruence.
    - exists oc. by rewrite list_lookup_insert_ne. }
  rewrite length_insert in Hlen1.
  split; [done|]. split; [done|]. intros x ox Hx.
  destruct (decide (x = s)) as [->|Hne].
  - assert (ox = o) as -> by congruence.
    destruct (Hobj1 s o') as (ds & Hx1 & Hds); [by rewrite list_lookup_insert_eq|].
    exists ds. split; [done|]. intros d. rewrite Hds. simpl.
    rewrite set_add_elem, elem_of_cons. tauto.
  - destruct (Hobj1 x ox) as (ds & Hx1 & Hds); [by rewrite list_lookup_insert_ne|].
    exists ds. split; [done|]. intros d. rewrite Hds, elem_of_cons. tauto.
Qed.

Lemma AbortSignal_any_spec (a b : ref) (h : heap) (oa ob : sigobj) :
  wf h → h !! a = Some oa → h !! b = Some ob →
  is_aborted a h = false → is_aborted b h = false →
  ∃ h1 oc, AbortSignal_any [a; b] h = (Normal (length h), h1)
        ∧ wf h1
        ∧ length h1 = S (length h)
        ∧ h1 !! length h = Some oc ∧ aborted oc = false ∧ s_fired oc = 0
        ∧ (is_aborted a h1 = false ∧ follows h1 (length h) a)
        ∧ (is_aborted b h1 = false ∧ follows h1 (length h) b).
Proof.
  intros Hwf Ha Hb Hna Hnb.
  set (c := length h).
  set (srcs := fold_left (λ acc s, set_add s acc) ([a; b] ≫= sources_of h) []).
  set (h0 := h ++ [fresh_signal (Some srcs)]).
  assert (h0 !! c = Some (fresh_signal (Some srcs))) as Hc0.
  { unfold h0, c. rewrite lookup_app_r by done. by rewrite Nat.sub_diag. }
  assert (∀ x ox, h !! x = Some ox → h0 !! x = Some ox) as Hold.
  { intros x ox Hx. unfold h0. rewrite lookup_app_l; [done | by eapply lookup_lt_Some]. }
  destruct (fold_add_dependent_spec c srcs srcs h0) as (Hwf1 & Hlen1 & Hobj1).
  { done. } { by apply wf_alloc. } { by eexists. }
  set (h1 := fold_left (add_dependent c) srcs h0) in *.
  destruct (Hobj1 c _ Hc0) as (dsc & Hc1 & _).
  exists h1, (with_dependents (fresh_signal (Some srcs)) dsc).
  split.
  { unfold AbortSignal_any. simpl existsb. rewrite Hna, Hnb. done. }
  split; [done|]. split.
  { rewrite Hlen1. unfold h0. rewrite length_app. simpl. lia. }
  split; [done|]. split; [done|]. split; [done|].
  assert (∀ x ox, h !! x = Some ox → is_aborted x h = false →
            sources_of h x ⊆ srcs →
            is_aborted x h1 = false ∧ follows h1 c x) as Hone.
  { intros x ox Hx Hnx Hsrcs.
    destruct (Hobj1 x ox (Hold _ _ Hx)) as (dsx & Hx1 & Hdsx).
    split.
    { rewrite (is_aborted_Some _ _ _ Hx1).
      by rewrite (is_aborted_Some _ _ _ Hx) in Hnx. }
    right. split.
    - intros ox1 Hox1 Hnone. assert (ox1 = with_dependents ox dsx) as -> by congruence.
      simpl in *. apply Hdsx. right. split; [done|]. apply Hsrcs.
      unfold sources_of. rewrite Hx, Hnone. by left.
    - intros s os1 Hs1 _ Hin.
      assert (s < length h0) as Hslt.
      { rewrite <- Hlen1. by eapply lookup_lt_Some. }
      destruct (lookup_lt_is_Some_2 _ _ Hslt) as [os0 Hs0].
      destruct (Hobj1 s os0 Hs0) as (dss & Hs1' & Hdss).
      assert (os1 = with_dependents os0 dss) as -> by congruence.
      simpl in *. apply Hdss. right. split; [done|].
      apply Hdss in Hin as [Hin | [-> _]].
      2:{ pose proof (lookup_lt_Some _ _ _ Hx). unfold c in *. lia. }
      unfold h0 in Hs0. apply lookup_app_Some in Hs0 as [Hs0 | [_ Hs0]].
      2:{ apply list_lookup_singleton_Some in Hs0 as [_ <-].
          simpl in Hin. by apply elem_of_nil in Hin. }
      destruct (wf_dependents _ Hwf s os0 x Hs0 Hin) as (od & ss & Hxo & Hss & Hsin).
      apply Hsrcs. unfold sources_of. rewrite Hxo, Hss. done. }
  assert (∀ x, x ∈ sources_of h a ∨ x ∈ sources_of h b → x ∈ srcs) as Hsrcs.
  { intros x Hx. unfold srcs. apply fold_set_add_elem. right. simpl.
    rewrite app_nil_r. apply elem_of_app. done. }
  split; (eapply Hone; [done..|]); intros x Hx; apply Hsrcs; tauto.
Qed.

Lemma wf_nil : wf [].
Proof. split; intros x o; by rewrite lookup_nil. Qed.

Lemma derived_fresh (h1 : heap) (a b c : ref) (oc : sigobj) :
  h1 !! c = Some oc → aborted oc = false → s_fired oc = 0 →
  is_aborted a h1 = false ∧ follows h1 c a →
  is_aborted b h1 = false ∧ follows h1 c b →
  derived h1 a b c.
Proof.
  intros Hc Hoc Hf Ha Hb. split.
  - by eapply lookup_lt_Some.
  - unfold get_fired. rewrite (is_aborted_Some _ _ _ Hc), Hc, Hoc. done.
  - done.
Qed.

(** What combining two pending signals builds, on either path. *)
Lemma combine_pending_spec (native_any : bool) (a b : ref) (h : heap)
    (oa ob : sigobj) :
  wf h →
  h !! a = Some oa → h !! b = Some ob →
  genuine oa → genuine ob →
  is_aborted a h = false → is_aborted b h = false →
  ∃ h1 oc,
    combineAbortSignals native_any (Some a) (Some b) h
    = (Normal (Some (length h)), h1)
    ∧ wf h1 ∧ length h1 = S (length h)
    ∧ h1 !! length h = Some oc ∧ aborted oc = false ∧ s_fired oc = 0
    ∧ is_aborted a h1 = false
    ∧ is_aborted b h1 = false
    ∧ (native_any && isRealAbortSignal a h && isRealAbortSignal b h = true
       ∨ (quiet (s_listeners oa) ∧ quiet (s_listeners ob)) →
       follows h1 (length h) a ∧ follows h1 (length h) b).
Proof.
  intros Hwf Ha Hb (_ & Hma & _) (_ & Hmb & _) Hna Hnb.
  cbn. rewrite Hna, Hnb.
  destruct (native_any && isRealAbortSignal a h && isRealAbortSignal b h).
  - destruct (AbortSignal_any_spec a b h oa ob Hwf Ha Hb Hna Hnb)
      as (h1 & oc & Hany & Hwf1 & Hlen1 & Hc1 & Hoc & Hf & (Hna1 & Hfa) & (Hnb1 & Hfb)).
    exists h1, oc. split; [unfold bind, ret; by rewrite Hany|].
    by repeat (split; [done|]).
  - destruct (combine_manually_spec a b h oa ob Hwf Ha Hb Hma Hmb Hna Hnb)
      as (h1 & Hman & Hwf1 & Hlen1 & Hc1 & Hna1 & Hnb1 & Hfol).
    exists h1, (fresh_signal None). repeat (split; [done|]).
    intros [? | [Hqa Hqb]]; [done | by apply Hfol].
Qed.


Lemma wf_samples (o o' : sigobj) :
  (∀ l, l ∈ s_listeners o ++ s_listeners o' → ∀ t, l_callback l ≠ OnAbort t) →
  s_dependents o = [] → s_dependents o' = [] → wf [o; o'].
Proof.
  intros Hl Hd Hd'. split.
  - intros x ox l t Hx Hin Hcb. exfalso. refine (Hl l _ t Hcb).
    apply elem_of_app.
    destruct x as [|[|x]]; simpl in Hx; [left | right | done];
      by injection Hx as <-.
  - intros x ox d Hx Hin. exfalso.
    destruct x as [|[|x]]; simpl in Hx; [| | done]; injection Hx as <-.
    + rewrite Hd in Hin. by apply elem_of_nil in Hin.
    + rewrite Hd' in Hin. by apply elem_of_nil in Hin.
Qed.



(** Both orders and both paths on two controller signals: the derived signal
    is triggered, and its event has fired once. *)
Example trigger_both_orders :
  let h := [Samples.pending_signal; Samples.pending_signal] in
  ∀ native_any : bool,
    let h1 := (combineAbortSignals native_any (Some 0) (Some 1) h).2 in
    let after rs := (trigger_all rs h1).2 in
    (is_aborted 2 h1, get_fired 2 h1) = (false, 0)
    ∧ (is_aborted 2 (after [0]), get_fired 2 (after [0])) = (true, 1)
    ∧ (is_aborted 2 (after [1]), get_fired 2 (after [1])) = (true, 1)
    ∧ (is_aborted 2 (after [0; 1]), get_fired 2 (after [0; 1])) = (true, 1)
    ∧ (is_aborted 2 (after [1; 0]), get_fired 2 (after [1; 0])) = (true, 1).
Proof. intros h [|]; vm_compute; done. Qed.

(** A listener that throws does not keep the derived signal from following:
    the platform reports the exception and calls the next listener. *)
Example trigger_with_throwing_listener :
  let h := [Samples.noisy_signal; Samples.pending_signal] in
  let h1 := (combineAbortSignals false (Some 0) (Some 1) h).2 in
  ∃ h2, trigger_all [0] h1 = (Normal (), h2)
        ∧ (is_aborted 2 h2, get_fired 2 h2) = (true, 1).
Proof. intros h h1. exists (trigger_all [0] h1).2. by vm_compute. Qed.

(** * Further properties of the module *)

(** ** Aborts stay within what they can reach *)

Section Within.

Variable P : ref → Prop.

Lemma within_refl (h : heap) : within P h h.
Proof. split; [done|]. split; [done|]. intros x o' Hx. by exists o'. Qed.

Lemma within_trans (h1 h2 h3 : heap) :
  within P h1 h2 → within P h2 h3 → within P h1 h3.
Proof.
  intros (Hl12 & Hf12 & Ho12) (Hl23 & Hf23 & Ho23). split; [congruence|]. split.
  - intros x Hx. rewrite Hf23, Hf12; done.
  - intros x o3 Hx3. destruct (Ho23 x o3 Hx3) as (o2 & Hx2 & Hls2 & Hd2).
    destruct (Ho12 x o2 Hx2) as (o1 & Hx1 & Hls1 & Hd1).
    exists o1. split; [done|]. split; [by etrans | congruence].
Qed.

Lemma within_insert (h : heap) (x : ref) (o o' : sigobj) :
  P x → h !! x = Some o →
  s_listeners o' ⊆ s_listeners o → s_dependents o' = s_dependents o →
  within P h (<[x := o']> h).
Proof.
  intros HP Hx Hls Hds. pose proof (lookup_lt_Some _ _ _ Hx) as Hlt.
  split; [by rewrite length_insert|]. split.
  - intros y Hy. rewrite list_lookup_insert_ne; [done|]. by intros ->.
  - intros y oy Hy. destruct (decide (y = x)) as [->|Hne].
    + rewrite list_lookup_insert_eq in Hy by done. injection Hy as <-. by exists o.
    + rewrite list_lookup_insert_ne in Hy by done. by exists oy.
Qed.

Lemma closed_within (h h' : heap) :
  closed_under P h → within P h h' → closed_under P h'.
Proof.
  intros Hcl (_ & _ & Hobj) x o' HP Hx'.
  destruct (Hobj x o' Hx') as (o & Hx & Hls & Hds).
  destruct (Hcl x o HP Hx) as [Hl Hd]. split.
  - intros l t Hin. apply Hl. by apply Hls.
  - intros d Hin. apply Hd. by rewrite <- Hds.
Qed.

Lemma mark_dependents_within (ds : list ref) (h : heap) :
  (∀ d, d ∈ ds → P d) → within P h (mark_dependents ds h).2.
Proof.
  intros Hds. destruct (mark_dependents ds h) as [marked h'] eqn:Hm. simpl.
  destruct (mark_dependents_spec _ _ _ _ Hm) as (Hlen & Hobj & _ & Hmk & _).
  split; [done|]. split.
  - intros x Hx. destruct (h !! x) as [ox|] eqn:Hox.
    + rewrite (Hobj x ox Hox). rewrite decide_False; [done|].
      intros Hin. apply Hx, Hds. by apply Hmk.
    + apply lookup_ge_None. apply lookup_ge_None in Hox. lia.
  - intros x o' Hx'.
    assert (x < length h) as Hlt by (rewrite <- Hlen; by eapply lookup_lt_Some).
    destruct (lookup_lt_is_Some_2 _ _ Hlt) as [ox Hox]. exists ox. split; [done|].
    rewrite (Hobj x ox Hox) in Hx'. injection Hx' as <-. by destruct (decide _).
Qed.

Section Loops.

Variable run : ref → heap → heap.
Hypothesis run_within :
  ∀ r h, closed_under P h → P r → within P h (run r h).

Lemma dispatch_within (x : ref) (ls : list listener) (h : heap) :
  closed_under P h → P x →
  (∀ l t, l ∈ ls → l_callback l = OnAbort t → P t) →
  within P h (dispatch run x ls h).
Proof.
  intros Hcl HP. revert h Hcl. induction ls as [|l ls IH]; intros h Hcl Hls;
    cbn [dispatch].
  { apply within_refl. }
  set (h1 := if l_once l then remove_listener x l h else h).
  assert (within P h h1) as H1.
  { unfold h1. destruct (l_once l); [|apply within_refl].
    unfold remove_listener. destruct (h !! x) as [o|] eqn:Hx; [|apply within_refl].
    eapply within_insert; [done..| |done]. simpl.
    intros l' Hl'. by apply list_elem_of_filter in Hl' as [_ ?]. }
  clearbody h1.
  destruct (run_callback run (l_callback l) h1) as [res h2] eqn:Hrun.
  assert (within P h1 h2) as H2.
  { unfold run_callback in Hrun.
    destruct (l_callback l) as [t|k st [e|]] eqn:Hcb; injection Hrun as <- <-;
      [|apply within_refl..].
    apply run_within; [by eapply closed_within|].
    eapply Hls; [|done]. apply elem_of_cons. by left. }
  destruct (stops_propagation (l_callback l)); [by eapply within_trans|].
  eapply within_trans; [exact H1|]. eapply within_trans; [exact H2|].
  apply IH.
  - eapply closed_within; [|exact H2]. by eapply closed_within.
  - intros l' t Hl'. apply Hls, elem_of_cons. by right.
Qed.

Lemma fire_abort_within (x : ref) (h : heap) :
  closed_under P h → P x → within P h (fire_abort run h x).
Proof.
  intros Hcl HP. unfold fire_abort. destruct (h !! x) as [o|] eqn:Hx;
    [|apply within_refl].
  assert (within P h (<[x := count_event o]> h)) as H1
    by by eapply within_insert.
  eapply within_trans; [exact H1|]. apply dispatch_within; [|done|].
  - by eapply closed_within.
  - intros l t Hl Hcb. destruct (Hcl x o HP Hx) as [Htg _]. by eapply Htg.
Qed.

Lemma fire_all_within (todo : list ref) (h : heap) :
  closed_under P h → (∀ x, x ∈ todo → P x) →
  within P h (fold_left (fire_abort run) todo h).
Proof.
  revert h. induction todo as [|x todo IH]; intros h Hcl Htodo; simpl.
  { apply within_refl. }
  assert (within P h (fire_abort run h x)) as H1.
  { apply fire_abort_within; [done|]. apply Htodo, elem_of_cons. by left. }
  eapply within_trans; [exact H1|]. apply IH; [by eapply closed_within|].
  intros y Hy. apply Htodo, elem_of_cons. by right.
Qed.

End Loops.

Lemma signal_abort_within (fuel : nat) (r : ref) (h : heap) :
  closed_under P h → P r → within P h (signal_abort fuel r h).
Proof.
  revert r h. induction fuel as [|fuel IH]; intros r h Hcl HP; simpl.
  { apply within_refl. }
  destruct (h !! r) as [o|] eqn:Hr; [|apply within_refl].
  destruct (truthy (s_aborted o)); [apply within_refl|].
  assert (within P h (<[r := set_aborted o]> h)) as H1
    by by eapply within_insert.
  pose proof (mark_dependents_within (s_dependents o) (<[r := set_aborted o]> h))
    as H2.
  destruct (mark_dependents _ _) as [marked h2] eqn:Hm. simpl in H2.
  destruct (mark_dependents_spec _ _ _ _ Hm) as (_ & _ & _ & Hmk & _).
  assert (∀ d, d ∈ s_dependents o → P d) as Hdeps
    by (intros d Hd; destruct (Hcl r o HP Hr) as [_ Hdp]; by apply Hdp).
  specialize (H2 Hdeps).
  assert (within P h h2) as H12 by by eapply within_trans.
  eapply within_trans; [exact H12|].
  apply (fire_all_within (signal_abort fuel) IH (r :: marked)).
  - by eapply closed_within.
  - intros x Hx. apply elem_of_cons in Hx as [-> | Hx]; [done|].
    apply Hdeps. by apply Hmk.
Qed.

Lemma trigger_all_within (rs : list ref) (h : heap) :
  closed_under P h → Forall P rs → within P h (trigger_all rs h).2.
Proof.
  revert h. induction rs as [|r rs IH]; intros h Hcl Hrs.
  { apply within_refl. }
  apply Forall_cons in Hrs as [Hr Hrs].
  assert (within P h (abort r h)) as H1 by by apply signal_abort_within.
  change (within P h (trigger_all rs (abort r h)).2).
  eapply within_trans; [exact H1|]. apply IH; [by eapply closed_within | done].
Qed.

End Within.

(** ** The combiner only registers *)

Lemma same_state_refl (o : sigobj) : same_state o o.
Proof. by repeat split. Qed.

Lemma same_state_trans (o1 o2 o3 : sigobj) :
  same_state o1 o2 → same_state o2 o3 → same_state o1 o3.
Proof. intros (?&?&?&?&?&?) (?&?&?&?&?&?). repeat split; congruence. Qed.

Lemma registers_only_refl (h : heap) : registers_only h h.
Proof. intros x o Hx. exists o. split; [done|]. split; [apply same_state_refl|done]. Qed.

Lemma registers_only_trans (h1 h2 h3 : heap) :
  registers_only h1 h2 → registers_only h2 h3 → registers_only h1 h3.
Proof.
  intros H12 H23 x o1 Hx1.
  destruct (H12 x o1 Hx1) as (o2 & Hx2 & Hs12 & Hl12 & Hd12).
  destruct (H23 x o2 Hx2) as (o3 & Hx3 & Hs23 & Hl23 & Hd23).
  exists o3. split; [done|]. split; [by eapply same_state_trans|].
  split; by etrans.
Qed.

Lemma registers_only_app (h : heap) (o : sigobj) : registers_only h (h ++ [o]).
Proof.
  intros x ox Hx. exists ox. split; [|split; [apply same_state_refl|done]].
  rewrite lookup_app_l; [done | by eapply lookup_lt_Some].
Qed.

Lemma registers_only_insert (h : heap) (x : ref) (o o' : sigobj) :
  h !! x = Some o → same_state o o' →
  s_listeners o ⊆ s_listeners o' → s_dependents o ⊆ s_dependents o' →
  registers_only h (<[x := o']> h).
Proof.
  intros Hx Hs Hl Hd y oy Hy. destruct (decide (y = x)) as [->|Hne].
  - exists o'. rewrite list_lookup_insert_eq by by eapply lookup_lt_Some.
    assert (oy = o) as -> by congruence. done.
  - exists oy. rewrite list_lookup_insert_ne by done.
    split; [done|]. split; [apply same_state_refl|done].
Qed.

Lemma add_listener_registers (r : ref) (l : listener) (h : heap) :
  registers_only h (add_listener r l h) ∧ length (add_listener r l h) = length h.
Proof.
  unfold add_listener. destruct (h !! r) as [o|] eqn:Hr;
    [|split; [apply registers_only_refl | done]].
  destruct (existsb _ _); [split; [apply registers_only_refl | done]|].
  split; [|by rewrite length_insert].
  eapply registers_only_insert; [done | by repeat split | | done].
  simpl. intros l' Hl'. apply elem_of_app. by left.
Qed.

Lemma add_dependent_registers (d : ref) (h : heap) (s : ref) :
  registers_only h (add_dependent d h s) ∧ length (add_dependent d h s) = length h.
Proof.
  unfold add_dependent. destruct (h !! s) as [o|] eqn:Hs;
    [|split; [apply registers_only_refl | done]].
  split; [|by rewrite length_insert].
  eapply registers_only_insert; [done | by repeat split | done |].
  simpl. intros d' Hd'. apply set_add_elem. by right.
Qed.

Lemma fold_add_dependent_registers (d : ref) (srcs : list ref) (h : heap) :
  registers_only h (fold_left (add_dependent d) srcs h)
  ∧ length (fold_left (add_dependent d) srcs h) = length h.
Proof.
  revert h. induction srcs as [|s srcs IH]; intros h; simpl.
  { split; [apply registers_only_refl | done]. }
  destruct (add_dependent_registers d h s) as [Hr Hlen].
  destruct (IH (add_dependent d h s)) as [Hr' Hlen'].
  split; [by eapply registers_only_trans | congruence].
Qed.

Lemma add_listener_back (r : ref) (l : listener) (h : heap) (x : ref) (o' : sigobj) :
  add_listener r l h !! x = Some o' →
  ∃ o, h !! x = Some o ∧ s_dependents o' = s_dependents o
       ∧ ∀ l', l' ∈ s_listeners o' → l' ∈ s_listeners o ∨ l' = l.
Proof.
  unfold add_listener. destruct (h !! r) as [o|] eqn:Hr; [|by exists o'; auto].
  destruct (existsb _ _); [by exists o'; auto|].
  destruct (decide (x = r)) as [->|Hne].
  - rewrite list_lookup_insert_eq by by eapply lookup_lt_Some.
    intros [= <-]. exists o. split; [done|]. split; [done|]. simpl. intros l' Hl'.
    apply elem_of_app in Hl' as [Hl' | Hl']; [by left|].
    apply list_elem_of_singleton in Hl'. by right.
  - rewrite list_lookup_insert_ne by done. by exists o'; auto.
Qed.

(** The controller of the manual path can reach itself only. *)
Lemma fresh_controller_closed (h : heap) :
  closed_under (λ x, x = length h) (h ++ [fresh_signal None]).
Proof.
  intros x o -> Hx. rewrite lookup_app_r in Hx by done.
  rewrite Nat.sub_diag in Hx. injection Hx as <-. split.
  - intros l t Hl. by apply elem_of_nil in Hl.
  - intros d Hd. by apply elem_of_nil in Hd.
Qed.

(** One registration of the manual path, whatever the method slot holds:
    the call may trigger the controller, and touches nothing else but the
    listeners of [r]. *)
Lemma call_addEventListener_registers (what : string) (r c : ref) (h : heap) :
  closed_under (λ x, x = c) h →
  let h' := (call_addEventListener what r (OnAbort c) h).2 in
  length h' = length h
  ∧ closed_under (λ x, x = c) h'
  ∧ (∀ y, y ≠ r → y ≠ c → h' !! y = h !! y)
  ∧ ∀ x o, x ≠ c → h !! x = Some o →
      ∃ o', h' !! x = Some o' ∧ same_state o o'
            ∧ s_listeners o ⊆ s_listeners o' ∧ s_dependents o ⊆ s_dependents o'.
Proof.
  intros Hcl.
  assert (length h = length h
          ∧ closed_under (λ x, x = c) h
          ∧ (∀ y, y ≠ r → y ≠ c → h !! y = h !! y)
          ∧ ∀ x o, x ≠ c → h !! x = Some o →
              ∃ o', h !! x = Some o' ∧ same_state o o'
                    ∧ s_listeners o ⊆ s_listeners o'
                    ∧ s_dependents o ⊆ s_dependents o') as Hsame.
  { split; [done|]. split; [done|]. split; [done|]. intros x o _ Hx.
    by apply registers_only_refl. }
  unfold call_addEventListener. destruct (h !! r) as [o|] eqn:Hr; [|exact Hsame].
  destruct (s_addEventListener o) as [v| |[|e|]]; cbn [snd]; try exact Hsame.
  - set (l := {| l_callback := OnAbort c; l_once := true |}).
    destruct (add_listener_registers r l h) as [Hreg Hlen].
    split; [done|]. split; [|split].
    + intros x ox -> Hx.
      destruct (add_listener_back _ _ _ _ _ Hx) as (o0 & Hx0 & Hds & Hls).
      destruct (Hcl c o0 eq_refl Hx0) as [Hl Hd]. split.
      * intros l' t Hin Hcb. destruct (Hls l' Hin) as [Hin0 | ->];
          [by eapply Hl | by injection Hcb as <-].
      * intros d Hd'. rewrite Hds in Hd'. by apply Hd.
    + intros y Hy _. unfold add_listener. rewrite Hr.
      destruct (existsb _ _); [done|]. by rewrite list_lookup_insert_ne.
    + intros x ox _ Hx. by apply Hreg.
  - unfold run_callback. cbn [snd].
    pose proof (signal_abort_within (λ x, x = c) (S (length h)) c h Hcl eq_refl)
      as Hw.
    fold (abort c h) in Hw.
    split; [apply Hw|]. split; [by eapply closed_within|].
    destruct Hw as (_ & Hframe & _). split; [by intros y _ Hy; apply Hframe|].
    intros x ox Hne Hx. exists ox. rewrite Hframe by done.
    split; [done|]. split; [apply same_state_refl|done].
Qed.

(** One registration through a method slot that holds no foreign function:
    nothing is triggered. *)
Lemma call_addEventListener_quiet (what : string) (r : ref) (cb : closure)
    (h : heap) :
  (∀ o, h !! r = Some o → not_foreign (s_addEventListener o) = true) →
  registers_only h (call_addEventListener what r cb h).2
  ∧ length (call_addEventListener what r cb h).2 = length h.
Proof.
  intros Hm. unfold call_addEventListener. destruct (h !! r) as [o|];
    [|split; [apply registers_only_refl | done]].
  specialize (Hm o eq_refl).
  destruct (s_addEventListener o) as [v| |f]; simpl;
    [split; [apply registers_only_refl | done] | | done].
  apply add_listener_registers.
Qed.

(** The shape of a store that gained one object. *)
Lemma registers_only_alloc (h h' : heap) (o : sigobj) :
  registers_only (h ++ [o]) h' → length h' = length (h ++ [o]) →
  registers_only h h'
  ∧ length h' = S (length h)
  ∧ ∃ o', h' !! length h = Some o' ∧ same_state o o'.
Proof.
  intros Hr Hlen. split; [|split].
  - eapply registers_only_trans; [apply registers_only_app | done].
  - rewrite Hlen, length_app. simpl. lia.
  - destruct (Hr (length h) o) as (o' & Ho' & Hs & _).
    { rewrite lookup_app_r by done. by rewrite Nat.sub_diag. }
    by exists o'.
Qed.

Lemma combine_manually_result (a b : ref) (h : heap) :
  (combine_manually a b h).1 = Normal (Some (length h))
  ∨ ∃ e, (combine_manually a b h).1 = Throw e.
Proof.
  unfold combine_manually, bind, new_AbortController.
  destruct (call_addEventListener "a" a _ _) as [[[]|e] h1]; [|by eauto].
  destruct (call_addEventListener "b" b _ _) as [[[]|e] h2]; [by left | by eauto].
Qed.

Lemma combine_manually_registers (a b : ref) (h : heap) :
  registers_only h (combine_manually a b h).2
  ∧ length (combine_manually a b h).2 = S (length h)
  ∧ (∀ y, y < length h → y ≠ a → y ≠ b → (combine_manually a b h).2 !! y = h !! y).
Proof.
  unfold combine_manually, bind, new_AbortController, ret.
  set (h0 := h ++ [fresh_signal None]).
  assert (length h0 = S (length h)) as Hlen0
    by (unfold h0; rewrite length_app; simpl; lia).
  assert (∀ x, x < length h → h0 !! x = h !! x) as Hold
    by (intros x Hx; unfold h0; by rewrite lookup_app_l).
  destruct (call_addEventListener_registers "a" a (length h) h0
              (fresh_controller_closed h)) as (Hla & Hcla & Hfa & Hra).
  destruct (call_addEventListener "a" a (OnAbort (length h)) h0) as [[[]|e] h1];
    cbn [snd] in *.
  2:{ split; [|split; [congruence|]].
      - intros x o Hx. pose proof (lookup_lt_Some _ _ _ Hx) as Hlt.
        apply (Hra x o); [lia | by rewrite Hold].
      - intros y Hy Hya Hyb. rewrite Hfa, Hold; [done..|lia]. }
  destruct (call_addEventListener_registers "b" b (length h) h1 Hcla)
    as (Hlb & Hclb & Hfb & Hrb).
  assert (registers_only h (call_addEventListener "b" b (OnAbort (length h)) h1).2)
    as Hreg.
  { intros x o Hx. pose proof (lookup_lt_Some _ _ _ Hx) as Hlt.
    assert (x ≠ length h) as Hne by lia.
    rewrite <- Hold in Hx by done.
    destruct (Hra x o Hne Hx) as (o1 & Hx1 & Hs1 & Hl1 & Hd1).
    destruct (Hrb x o1 Hne Hx1) as (o2 & Hx2 & Hs2 & Hl2 & Hd2).
    exists o2. split; [done|]. split; [by eapply same_state_trans|].
    split; by etrans. }
  assert (∀ y, y < length h → y ≠ a → y ≠ b →
            (call_addEventListener "b" b (OnAbort (length h)) h1).2 !! y = h !! y)
    as Hframe.
  { intros y Hy Hya Hyb. rewrite Hfb, Hfa, Hold; [done..|lia|done|lia]. }
  destruct (call_addEventListener "b" b (OnAbort (length h)) h1) as [[[]|e] h2];
    cbn [snd] in *; (split; [done|]; split; [congruence | done]).
Qed.

(** With no foreign function in the method slots, the controller of the
    manual path is left as it was made. *)
Lemma combine_manually_controller (a b : ref) (h : heap) :
  (∀ o, h !! a = Some o → not_foreign (s_addEventListener o) = true) →
  (∀ o, h !! b = Some o → not_foreign (s_addEventListener o) = true) →
  ∃ oc, (combine_manually a b h).2 !! length h = Some oc
        ∧ same_state (fresh_signal None) oc.
Proof.
  intros Hma Hmb. unfold combine_manually, bind, new_AbortController.
  set (h0 := h ++ [fresh_signal None]).
  assert (∀ x o, (∀ o, h !! x = Some o → not_foreign (s_addEventListener o) = true) →
            h0 !! x = Some o → not_foreign (s_addEventListener o) = true) as Hm0.
  { intros x o Hm Hx. apply lookup_app_Some in Hx as [Hx | [_ Hx]]; [by apply Hm|].
    by apply list_lookup_singleton_Some in Hx as [_ <-]. }
  destruct (call_addEventListener_quiet "a" a (OnAbort (length h)) h0 (λ o, Hm0 a o Hma))
    as [Hra Hla].
  destruct (call_addEventListener "a" a (OnAbort (length h)) h0) as [[[]|e] h1];
    cbn [snd] in *.
  2:{ destruct (registers_only_alloc h h1 _ Hra Hla) as (_ & _ & Hc). exact Hc. }
  destruct (call_addEventListener_quiet "b" b (OnAbort (length h)) h1) as [Hrb Hlb].
  { intros o1 Hb1.
    assert (b < length h0) as Hlt by (rewrite <- Hla; by eapply lookup_lt_Some).
    destruct (lookup_lt_is_Some_2 _ _ Hlt) as [o0 Hb0].
    destruct (Hra b o0 Hb0) as (o1' & Hb1' & (_ & _ & Hadd & _) & _).
    assert (o1' = o1) as -> by congruence. rewrite Hadd. by eapply Hm0. }
  assert (registers_only h0 (call_addEventListener "b" b (OnAbort (length h)) h1).2)
    as Hr by by eapply registers_only_trans.
  destruct (call_addEventListener "b" b (OnAbort (length h)) h1) as [[[]|e] h2];
    cbn [snd] in *.
  all: assert (length h2 = length h0) as Hl02 by congruence.
  all: destruct (registers_only_alloc h h2 _ Hr Hl02) as (_ & _ & Hc); exact Hc.
Qed.

(** Combining two pending inputs: the store gains one object and the old
    ones are registered upon at most, whether the combiner returns or
    throws. *)
Lemma combine_both_pending_shape (native_any : bool) (a b : ref) (h : heap) :
  is_aborted a h = false → is_aborted b h = false →
  let res := combineAbortSignals native_any (Some a) (Some b) h in
  registers_only h res.2
  ∧ length res.2 = S (length h)
  ∧ (res.1 = Normal (Some (length h)) ∨ ∃ e, res.1 = Throw e).
Proof.
  intros Hna Hnb. cbn. rewrite Hna, Hnb.
  destruct (native_any && isRealAbortSignal a h && isRealAbortSignal b h).
  - unfold bind, ret, AbortSignal_any. simpl existsb. rewrite Hna, Hnb. simpl.
    set (srcs := fold_left (λ acc s, set_add s acc) _ []).
    destruct (fold_add_dependent_registers (length h) srcs
                (h ++ [fresh_signal (Some srcs)])) as [Hr Hlen].
    destruct (registers_only_alloc _ _ _ Hr Hlen) as (Hr' & Hlen' & _).
    split; [done|]. split; [done | by left].
  - destruct (combine_manually_registers a b h) as (Hr & Hlen & _).
    split; [done|]. split; [done | exact (combine_manually_result a b h)].
Qed.

(** With no foreign function in the method slots of the inputs, the new
    object is in the state of a fresh signal. *)
Lemma combine_both_pending_controller (native_any : bool) (a b : ref) (h : heap) :
  is_aborted a h = false → is_aborted b h = false →
  (∀ o, h !! a = Some o → not_foreign (s_addEventListener o) = true) →
  (∀ o, h !! b = Some o → not_foreign (s_addEventListener o) = true) →
  ∃ src oc, (combineAbortSignals native_any (Some a) (Some b) h).2 !! length h
            = Some oc
            ∧ same_state (fresh_signal src) oc.
Proof.
  intros Hna Hnb Hma Hmb. cbn. rewrite Hna, Hnb.
  destruct (native_any && isRealAbortSignal a h && isRealAbortSignal b h).
  - unfold bind, ret, AbortSignal_any. simpl existsb. rewrite Hna, Hnb. simpl.
    set (srcs := fold_left (λ acc s, set_add s acc) _ []).
    destruct (fold_add_dependent_registers (length h) srcs
                (h ++ [fresh_signal (Some srcs)])) as [Hr Hlen].
    destruct (registers_only_alloc _ _ _ Hr Hlen) as (_ & _ & o' & Ho' & Hs).
    by eauto.
  - destruct (combine_manually_controller a b h Hma Hmb) as (oc & Hoc & Hs).
    by eauto.
Qed.

Lemma registers_only_is_aborted (h h' : heap) (r : ref) :
  registers_only h h' → r < length h → is_aborted r h' = is_aborted r h.
Proof.
  intros Hr Hlt. destruct (lookup_lt_is_Some_2 _ _ Hlt) as [o Ho].
  destruct (Hr r o Ho) as (o' & Ho' & (_ & Hab & _) & _).
  unfold is_aborted, get_aborted. by rewrite Ho, Ho', Hab.
Qed.

Lemma combine_short_circuit (native_any : bool) (a b : ref) (h : heap) :
  (is_aborted a h = true →
   combineAbortSignals native_any (Some a) (Some b) h = (Normal (Some a), h))
  ∧ (is_aborted a h = false → is_aborted b h = true →
     combineAbortSignals native_any (Some a) (Some b) h = (Normal (Some b), h)).
Proof. split; [intros Ha | intros Ha Hb]; cbn; by rewrite ?Ha, ?Hb. Qed.

Lemma combine_registers (native_any : bool) (a b : option ref) (h : heap) :
  registers_only h (combineAbortSignals native_any a b h).2.
Proof.
  destruct a as [a|], b as [b|]; try apply registers_only_refl.
  destruct (combine_short_circuit native_any a b h) as [Hsa Hsb].
  destruct (is_aborted a h) eqn:Hna.
  { rewrite Hsa by done. apply registers_only_refl. }
  destruct (is_aborted b h) eqn:Hnb.
  { rewrite Hsb by done. apply registers_only_refl. }
  apply (combine_both_pending_shape native_any a b h Hna Hnb).
Qed.


(** X2: when no provided input has an [addEventListener] other than the
    platform's and the combiner returns, the signal it returns is triggered
    exactly when one of the inputs was triggered at the call (an absent
    input and an absent result count as not triggered). *)
Theorem combine_result_triggered_iff (native_any : bool) (a b c : option ref)
    (h h' : heap) :
  (∀ r o, a = Some r ∨ b = Some r → h !! r = Some o →
     not_foreign (s_addEventListener o) = true) →
  combineAbortSignals native_any a b h = (Normal c, h') →
  from_option (λ r, is_aborted r h') false c
  = from_option (λ r, is_aborted r h) false a
    || from_option (λ r, is_aborted r h) false b.
Proof.
  intros Hm. destruct a as [a|], b as [b|].
  - destruct (combine_short_circuit native_any a b h) as [Hsa Hsb].
    destruct (is_aborted a h) eqn:Hna.
    { rewrite Hsa by done. intros [= <- <-]. simpl. by rewrite Hna. }
    destruct (is_aborted b h) eqn:Hnb.
    { rewrite Hsb by done. intros [= <- <-]. simpl. by rewrite Hna, Hnb. }
    intros Hc.
    destruct (combine_both_pending_shape native_any a b h Hna Hnb)
      as (_ & _ & Hres).
    destruct (combine_both_pending_controller native_any a b h Hna Hnb)
      as (src & oc & Hoc & (_ & Hab & _)).
    { intros o. apply Hm. by left. }
    { intros o. apply Hm. by right. }
    rewrite Hc in Hoc, Hres. simpl in *.
    destruct Hres as [[= ->] | [e [=]]]. simpl.
    rewrite Hna, Hnb. unfold is_aborted, get_aborted. by rewrite Hoc, Hab.
  - intros [= <- <-]. simpl. by rewrite orb_false_r.
  - by intros [= <- <-].
  - by intros [= <- <-].
Qed.

Lemma combine_result_triggered_iff_witness :
  let h := [Samples.pending_signal; Samples.foreign_realm_signal] in
  from_option
    (λ r, is_aborted r (combineAbortSignals true (Some 0) (Some 1) h).2) false (Some 2)
  = from_option (λ r, is_aborted r h) false (Some 0)
    || from_option (λ r, is_aborted r h) false (Some 1).
Proof.
  apply (combine_result_triggered_iff true (Some 0) (Some 1) (Some 2)
           [Samples.pending_signal; Samples.foreign_realm_signal]).
  - intros r o [[= <-] | [= <-]] [= <-]; reflexivity.
  - reflexivity.
Defined.

(** ** The combiner: what it throws *)

Lemma uncallable_not_real (r : ref) (h : heap) (o : sigobj) (v : jsval) :
  h !! r = Some o → s_addEventListener o = MData v → isRealAbortSignal r h = false.
Proof.
  intros Hr Hm. unfold isRealAbortSignal. rewrite Hr, Hm.
  destruct (s_instance o); [|done]. simpl.
  destruct v; by rewrite ?andb_false_r.
Qed.

Lemma combine_pending_manual (native_any : bool) (a b : ref) (h : heap) :
  is_aborted a h = false → is_aborted b h = false →
  isRealAbortSignal a h = false ∨ isRealAbortSignal b h = false →
  combineAbortSignals native_any (Some a) (Some b) h = combine_manually a b h.
Proof.
  intros Hna Hnb Hreal. cbn. rewrite Hna, Hnb.
  destruct Hreal as [-> | ->]; by rewrite ?andb_false_r.
Qed.

Lemma combine_manually_first_uncallable (a b : ref) (h : heap) (oa : sigobj)
    (v : jsval) :
  h !! a = Some oa → s_addEventListener oa = MData v →
  combine_manually a b h
  = (Throw (not_a_function "a?.addEventListener"), h ++ [fresh_signal None]).
Proof.
  intros Ha Hm.
  unfold combine_manually, bind, new_AbortController, call_addEventListener.
  rewrite lookup_app_l by by eapply lookup_lt_Some. by rewrite Ha, Hm.
Qed.

(** X3: with two pending inputs of which the first has no callable
    [addEventListener], the combiner throws the TypeError of the call
    [a?.addEventListener(...)]; the controller it had made stays in the
    store, and nothing is registered on either input. *)
Theorem combine_throws_on_first_uncallable (native_any : bool) (a b : ref)
    (h : heap) (oa : sigobj) (v : jsval) :
  h !! a = Some oa →
  s_addEventListener oa = MData v →
  is_aborted a h = false → is_aborted b h = false →
  combineAbortSignals native_any (Some a) (Some b) h
  = (Throw {| err_name := "TypeError";
              err_message := "a?.addEventListener is not a function" |},
     h ++ [fresh_signal None]).
Proof.
  intros Ha Hm Hna Hnb.
  rewrite combine_pending_manual; [|done..|left; by eapply uncallable_not_real].
  by erewrite combine_manually_first_uncallable.
Qed.

Lemma combine_throws_on_first_uncallable_witness :
  combineAbortSignals true (Some 0) (Some 1)
    [Samples.bare_flag; Samples.pending_signal]
  = (Throw {| err_name := "TypeError";
              err_message := "a?.addEventListener is not a function" |},
     [Samples.bare_flag; Samples.pending_signal] ++ [fresh_signal None]).
Proof.
  apply (combine_throws_on_first_uncallable true 0 1
           [Samples.bare_flag; Samples.pending_signal] Samples.bare_flag VUndefined);
    reflexivity.
Defined.

(** X4: with two distinct pending inputs of which the first is a signal
    proper and the second has no callable [addEventListener], the combiner
    throws the TypeError of the call [b?.addEventListener(...)] after it has
    registered its listener on the first input: the listener stays there. *)
Theorem combine_throws_on_second_uncallable (native_any : bool) (a b : ref)
    (h : heap) (oa ob : sigobj) (v : jsval) :
  h !! a = Some oa → h !! b = Some ob → a ≠ b →
  s_addEventListener oa = MEventTarget →
  s_addEventListener ob = MData v →
  is_aborted a h = false → is_aborted b h = false →
  combineAbortSignals native_any (Some a) (Some b) h
  = (Throw {| err_name := "TypeError";
              err_message := "b?.addEventListener is not a function" |},
     add_listener a {| l_callback := OnAbort (length h); l_once := true |}
       (h ++ [fresh_signal None])).
Proof.
  intros Ha Hb Hne Hma Hmb Hna Hnb.
  rewrite combine_pending_manual; [|done..|right; by eapply uncallable_not_real].
  unfold combine_manually, bind, new_AbortController, call_addEventListener.
  pose proof (lookup_lt_Some _ _ _ Ha) as Hla.
  pose proof (lookup_lt_Some _ _ _ Hb) as Hlb.
  rewrite lookup_app_l by done. rewrite Ha, Hma.
  assert (add_listener a {| l_callback := OnAbort (length h); l_once := true |}
            (h ++ [fresh_signal None]) !! b = Some ob) as ->.
  { unfold add_listener. rewrite lookup_app_l by done. rewrite Ha.
    destruct (existsb _ _).
    - by rewrite lookup_app_l.
    - rewrite list_lookup_insert_ne by done. by rewrite lookup_app_l. }
  by rewrite Hmb.
Qed.

Lemma combine_throws_on_second_uncallable_witness :
  combineAbortSignals true (Some 0) (Some 1)
    [Samples.pending_signal; Samples.bare_flag]
  = (Throw {| err_name := "TypeError";
              err_message := "b?.addEventListener is not a function" |},
     add_listener 0 {| l_callback := OnAbort 2; l_once := true |}
       ([Samples.pending_signal; Samples.bare_flag] ++ [fresh_signal None])).
Proof.
  apply (combine_throws_on_second_uncallable true 0 1
           [Samples.pending_signal; Samples.bare_flag]
           Samples.pending_signal Samples.bare_flag VUndefined);
    first [reflexivity | lia].
Defined.

(** ** The wrapped operation on its inputs *)

Section MoreCalls.

Variable native_any : bool.
Variable host_fn : nat → callargs → heap → outcome * heap.

Lemma count_entry_ne (f g : propval) (args : callargs)
    (tr : list (propval * callargs)) :
  g ≠ f →
  length (filter (λ e, e.1 = f) (tr ++ [(g, args)]))
  = length (filter (λ e, e.1 = f) tr).
Proof.
  intros Hne. rewrite filter_app, filter_cons_False by done.
  by rewrite filter_nil, app_nil_r.
Qed.

Lemma invocations_entered (f g : propval) (args : callargs) (w : world) :
  g ≠ f → invocations f (entered g args w) = invocations f w.
Proof. intros Hne. unfold invocations, entered. simpl. by apply count_entry_ne. Qed.

Lemma combine_input_triggered (s : option ref) (amb : ref) (h : heap) :
  from_option (λ r, is_aborted r h) false s || is_aborted amb h = true →
  ∃ c, combineAbortSignals native_any s (Some amb) h = (Normal (Some c), h)
       ∧ is_aborted c h = true.
Proof.
  intros Htrig. destruct s as [s|]; simpl in Htrig.
  - destruct (combine_short_circuit native_any s amb h) as [Hsa Hsb].
    destruct (is_aborted s h) eqn:Hs; simpl in Htrig.
    + exists s. by rewrite Hsa.
    + exists amb. by rewrite Hsb.
  - by exists amb.
Qed.

Lemma wrapped_rejects_input_triggered (f : propval) (amb : ref)
    (args : callargs) (w : world) :
  from_option (λ r, is_aborted r (signals w)) false (signal args)
  || is_aborted amb (signals w) = true →
  call native_any host_fn (PWrapped f amb) args w
  = (Rejected AbortError, entered (PWrapped f amb) args w).
Proof.
  intros Htrig. destruct (combine_input_triggered _ _ _ Htrig) as (c & Hc & Hab).
  simpl. rewrite Hc. simpl. rewrite Hab. by destruct w.
Qed.

(** X5: when the per-call signal reads as triggered at the call, or the
    ambient signal does while the per-call signal is absent or reads as not
    triggered, the wrapped operation rejects with the AbortError; no method
    of either signal is called, no signal is touched or allocated, and the
    original operation is not invoked. *)
Theorem wrapped_execute_rejects_on_triggered_input (f : propval) (amb : ref)
    (args : callargs) (w : world) :
  (∃ s, signal args = Some s ∧ is_aborted s (signals w) = true)
  ∨ (signal args = None ∧ is_aborted amb (signals w) = true)
  ∨ (∃ s, signal args = Some s ∧ is_aborted s (signals w) = false
          ∧ is_aborted amb (signals w) = true) →
  let res := call native_any host_fn (PWrapped f amb) args w in
  res.1 = Rejected {| err_name := "AbortError"; err_message := "Aborted" |}
  ∧ signals res.2 = signals w
  ∧ trace res.2 = trace w ++ [(PWrapped f amb, args)]
  ∧ invocations f res.2 = invocations f w.
Proof.
  intros Htrig res. unfold res. rewrite wrapped_rejects_input_triggered.
  - repeat split. simpl. apply invocations_entered, psize_wrapped_ne.
  - destruct Htrig as [(s & -> & Hs) | [(-> & Hamb) | (s & -> & Hs & Hamb)]];
      simpl; by rewrite ?Hs, ?Hamb.
Qed.


(** X7: a pending per-call object without a callable [addEventListener],
    under a pending ambient signal, makes the wrapped operation reject with
    the TypeError thrown by the combiner; the original operation is not
    invoked. *)
Theorem wrapped_execute_rejects_on_malformed_signal (f : propval) (s amb : ref)
    (args : callargs) (w : world) (os : sigobj) (v : jsval) :
  signal args = Some s →
  signals w !! s = Some os →
  s_addEventListener os = MData v →
  is_aborted s (signals w) = false →
  is_aborted amb (signals w) = false →
  let res := call native_any host_fn (PWrapped f amb) args w in
  res.1 = Rejected {| err_name := "TypeError";
                      err_message := "a?.addEventListener is not a function" |}
  ∧ trace res.2 = trace w ++ [(PWrapped f amb, args)]
  ∧ invocations f res.2 = invocations f w.
Proof.
  intros Hs Hos Hm Hns Hnamb res.
  assert (combineAbortSignals native_any (signal args) (Some amb) (signals w)
          = (Throw (not_a_function "a?.addEventListener"),
             signals w ++ [fresh_signal None])) as Hc.
  { rewrite Hs. rewrite combine_pending_manual;
      [|done..|left; by eapply uncallable_not_real].
    by erewrite combine_manually_first_uncallable. }
  unfold res. simpl. rewrite Hc. simpl. repeat split.
  apply (invocations_entered f (PWrapped f amb) args
           {| signals := signals w ++ [fresh_signal None]; trace := trace w |}).
  apply psize_wrapped_ne.
Qed.

(** X8: one call of the wrapped operation invokes the original at most
    once, whatever the signals are and however the call ends: there is no
    retry. *)
Theorem wrapped_execute_at_most_once (f : propval) (amb : ref)
    (args : callargs) (w : world) :
  let res := call native_any host_fn (PWrapped f amb) args w in
  invocations f w ≤ invocations f res.2 ≤ S (invocations f w).
Proof.
  pose proof (count_entry_ne f (PWrapped f amb) args (trace w)
                (psize_wrapped_ne f amb)) as Hent.
  simpl. destruct (combineAbortSignals _ _ _ _) as [[c|e] h1]; simpl.
  - destruct (from_option _ _ _); simpl.
    + unfold invocations. simpl. lia.
    + destruct (call_trace native_any host_fn f (with_signal args c)
                  (with_signals (entered (PWrapped f amb) args w) h1))
        as (rest & Htr & Hsmall).
      destruct (call native_any host_fn f _ _) as [o w']. simpl in *.
      unfold invocations. rewrite Htr. rewrite !filter_app, !length_app.
      rewrite (filter_smaller _ _ Hsmall).
      rewrite filter_cons_False by apply psize_wrapped_ne. rewrite filter_nil.
      destruct (is_function f); simpl.
      * rewrite filter_cons_True by reflexivity. simpl. lia.
      * lia.
  - unfold invocations. simpl. lia.
Qed.

(** X9: wrapping twice.  When the ambient signal of the inner wrapper is
    triggered, the outer wrapper rejects with the AbortError too, whatever
    its own ambient and per-call signals are, provided combining them
    returns; the original operation is not invoked. *)
Theorem nested_wrapper_rejects_on_inner_ambient (f : propval)
    (inner_amb outer_amb : ref) (args : callargs) (w : world)
    (c : option ref) (h1 : heap) :
  is_aborted inner_amb (signals w) = true →
  combineAbortSignals native_any (signal args) (Some outer_amb) (signals w)
  = (Normal c, h1) →
  let outer := PWrapped (PWrapped f inner_amb) outer_amb in
  let res := call native_any host_fn outer args w in
  res.1 = Rejected {| err_name := "AbortError"; err_message := "Aborted" |}
  ∧ invocations f res.2 = invocations f w.
Proof.
  intros Hin Hc outer res.
  assert (outer ≠ f) as Houter.
  { intros H. apply (f_equal psize) in H. simpl in H. lia. }
  assert (is_aborted inner_amb h1 = true) as Hin1.
  { destruct (is_aborted_valid _ _ Hin) as (o & Ho & _).
    pose proof (combine_registers native_any (signal args) (Some outer_amb)
                  (signals w)) as Hr.
    rewrite Hc in Hr. rewrite (registers_only_is_aborted _ _ _ Hr); [done|].
    by eapply lookup_lt_Some. }
  unfold res, outer.
  change (call native_any host_fn (PWrapped (PWrapped f inner_amb) outer_amb) args w)
    with (let w0 := entered outer args w in
          match combineAbortSignals native_any (signal args) (Some outer_amb)
                  (signals w0) with
          | (Throw e, h) => (Rejected e, with_signals w0 h)
          | (Normal combined, h) =>
              if from_option (λ c, is_aborted c h) false combined then
                match throwAbortError (A := Empty_set) h with
                | (Throw e, h) => (Rejected e, with_signals w0 h)
                | (Normal x, _) => match x with end
                end
              else
                let '(o, w') :=
                  call native_any host_fn (PWrapped f inner_amb)
                    (with_signal args combined) (with_signals w0 h) in
                (await o, w')
          end).
  cbv zeta. change (signals (entered outer args w)) with (signals w).
  rewrite Hc. destruct (from_option _ _ c).
  - simpl. split; [done|]. unfold invocations. simpl. by apply count_entry_ne.
  - rewrite wrapped_rejects_input_triggered
      by (simpl; rewrite Hin1; apply orb_true_r).
    simpl. split; [done|]. unfold invocations. simpl.
    rewrite count_entry_ne by apply psize_wrapped_ne. by apply count_entry_ne.
Qed.

(** X10: with a pending per-call signal and a pending ambient signal, both
    signals proper in a well-formed store, the wrapped operation hands the
    original a fresh pending signal.  Where that signal is built by hand,
    let no listener already registered on either signal stop the immediate
    propagation of its "abort" event.  Then, whatever controller signals
    are triggered afterwards, the signal handed over is triggered as soon as
    the per-call or the ambient signal is. *)
Theorem wrapped_execute_hands_over_combined_signal (f : propval) (s amb : ref)
    (args : callargs) (w : world) (os oamb : sigobj) :
  wf (signals w) →
  signal args = Some s →
  signals w !! s = Some os → signals w !! amb = Some oamb →
  genuine os → genuine oamb →
  is_aborted s (signals w) = false → is_aborted amb (signals w) = false →
  native_any && isRealAbortSignal s (signals w)
    && isRealAbortSignal amb (signals w) = true
  ∨ (quiet (s_listeners os) ∧ quiet (s_listeners oamb)) →
  let c := length (signals w) in
  ∃ h1,
    let inner :=
      call native_any host_fn f (with_signal args (Some c))
        {| signals := h1; trace := trace w ++ [(PWrapped f amb, args)] |} in
    call native_any host_fn (PWrapped f amb) args w = (await inner.1, inner.2)
    ∧ is_aborted c h1 = false
    ∧ ∀ rs, Forall (controller_signal h1) rs →
        ∃ h2, trigger_all rs h1 = (Normal (), h2)
          ∧ (is_aborted s h2 = true ∨ is_aborted amb h2 = true →
             is_aborted c h2 = true).
Proof.
  intros Hwf Hs Hos Hoamb Hgs Hgamb Hns Hnamb Hpath c.
  destruct (combine_pending_spec native_any s amb (signals w) os oamb
              Hwf Hos Hoamb Hgs Hgamb Hns Hnamb)
    as (h1 & oc & Hcomb & Hwf1 & Hlen1 & Hc1 & Hoc & Hfired & Hns1 & Hnamb1 & Hfol).
  destruct (Hfol Hpath) as [Hfa Hfb].
  fold c in Hcomb, Hc1, Hfa, Hfb.
  assert (is_aborted c h1 = false) as Hcn by by rewrite (is_aborted_Some _ _ _ Hc1).
  exists h1. split; [|split; [done|]].
  - simpl. rewrite Hs, Hcomb. simpl. rewrite Hcn.
    by destruct (call native_any host_fn f _ _).
  - intros rs Hrs.
    pose proof (lookup_lt_Some _ _ _ Hos). pose proof (lookup_lt_Some _ _ _ Hoamb).
    destruct (trigger_all_spec rs h1 s amb c Hwf1 Hrs) as (h2 & Hrun & _ & Hd & _);
      [lia | lia | by eapply derived_fresh |].
    exists h2. split; [exact Hrun|]. intros Hab.
    destruct (is_aborted c h2) eqn:Hc2; [done|].
    destruct (dv_pending _ _ _ _ Hd Hc2) as [[Hns2 _] [Hnamb2 _]].
    destruct Hab; congruence.
Qed.

End MoreCalls.

Lemma wrapped_execute_rejects_on_triggered_input_witness :
  let res :=
    call true Samples.echo_fn (PWrapped (PHost 0) 0) Samples.call1 Samples.cancelled in
  res.1 = Rejected {| err_name := "AbortError"; err_message := "Aborted" |}
  ∧ signals res.2 = signals Samples.cancelled
  ∧ trace res.2 = trace Samples.cancelled ++ [(PWrapped (PHost 0) 0, Samples.call1)]
  ∧ invocations (PHost 0) res.2 = invocations (PHost 0) Samples.cancelled.
Proof.
  apply (wrapped_execute_rejects_on_triggered_input true Samples.echo_fn
           (PHost 0) 0 Samples.call1 Samples.cancelled).
  right. left. split; reflexivity.
Defined.


Lemma wrapped_execute_rejects_on_malformed_signal_witness :
  let w := {| signals := [Samples.pending_signal; Samples.bare_flag]; trace := [] |} in
  let args := with_signal Samples.call1 (Some 1) in
  let res := call true Samples.echo_fn (PWrapped (PHost 0) 0) args w in
  res.1 = Rejected {| err_name := "TypeError";
                      err_message := "a?.addEventListener is not a function" |}
  ∧ trace res.2 = trace w ++ [(PWrapped (PHost 0) 0, args)]
  ∧ invocations (PHost 0) res.2 = invocations (PHost 0) w.
Proof.
  apply (wrapped_execute_rejects_on_malformed_signal true Samples.echo_fn
           (PHost 0) 1 0 (with_signal Samples.call1 (Some 1))
           {| signals := [Samples.pending_signal; Samples.bare_flag]; trace := [] |}
           Samples.bare_flag VUndefined); reflexivity.
Defined.

Lemma nested_wrapper_rejects_on_inner_ambient_witness :
  let w := {| signals := [Samples.triggered_signal; Samples.pending_signal];
              trace := [] |} in
  let outer := PWrapped (PWrapped (PHost 0) 0) 1 in
  let res := call true Samples.echo_fn outer Samples.call1 w in
  res.1 = Rejected {| err_name := "AbortError"; err_message := "Aborted" |}
  ∧ invocations (PHost 0) res.2 = invocations (PHost 0) w.
Proof.
  apply (nested_wrapper_rejects_on_inner_ambient true Samples.echo_fn (PHost 0)
           0 1 Samples.call1
           {| signals := [Samples.triggered_signal; Samples.pending_signal];
              trace := [] |}
           (Some 1) [Samples.triggered_signal; Samples.pending_signal]);
    reflexivity.
Defined.

Lemma wrapped_execute_hands_over_combined_signal_witness :
  let w := {| signals := [Samples.pending_signal; Samples.pending_signal];
              trace := [] |} in
  let args := with_signal Samples.call1 (Some 1) in
  ∃ h1,
    let inner :=
      call true Samples.echo_fn (PHost 0) (with_signal args (Some 2))
        {| signals := h1; trace := trace w ++ [(PWrapped (PHost 0) 0, args)] |} in
    call true Samples.echo_fn (PWrapped (PHost 0) 0) args w
    = (await inner.1, inner.2)
    ∧ is_aborted 2 h1 = false
    ∧ ∀ rs, Forall (controller_signal h1) rs →
        ∃ h2, trigger_all rs h1 = (Normal (), h2)
          ∧ (is_aborted 1 h2 = true ∨ is_aborted 0 h2 = true →
             is_aborted 2 h2 = true).
Proof.
  apply (wrapped_execute_hands_over_combined_signal true Samples.echo_fn
           (PHost 0) 1 0 (with_signal Samples.call1 (Some 1))
           {| signals := [Samples.pending_signal; Samples.pending_signal];
              trace := [] |}
           Samples.pending_signal Samples.pending_signal).
  - apply (wf_alloc [Samples.pending_signal]); [|done..].
    apply (wf_alloc []); [apply wf_nil | done..].
  - reflexivity.
  - reflexivity.
  - reflexivity.
  - repeat split.
  - repeat split.
  - reflexivity.
  - reflexivity.
  - left. reflexivity.
Defined.

(** ** The combiner touches its inputs only *)

Lemma fold_add_dependent_frame (d : ref) (srcs : list ref) (h : heap) (y : ref) :
  y ∉ srcs → fold_left (add_dependent d) srcs h !! y = h !! y.
Proof.
  revert h. induction srcs as [|s srcs IH]; intros h Hy; simpl; [done|].
  apply not_elem_of_cons in Hy as [Hne Hy]. rewrite IH by done.
  unfold add_dependent. destruct (h !! s); [|done].
  by rewrite list_lookup_insert_ne.
Qed.

Lemma combine_frame (native_any : bool) (a b : ref) (h : heap) (y : ref) :
  y < length h → y ≠ a → y ≠ b →
  y ∉ sources_of h a → y ∉ sources_of h b →
  (combineAbortSignals native_any (Some a) (Some b) h).2 !! y = h !! y.
Proof.
  intros Hlt Hna Hnb Hsa Hsb. unfold combineAbortSignals.
  destruct (is_aborted a h); [done|]. destruct (is_aborted b h); [done|].
  destruct (native_any && isRealAbortSignal a h && isRealAbortSignal b h).
  - unfold bind, ret, AbortSignal_any. simpl existsb.
    destruct (is_aborted a h || (is_aborted b h || false)); simpl.
    + by rewrite lookup_app_l.
    + rewrite fold_add_dependent_frame.
      * by rewrite lookup_app_l.
      * intros Hin. apply fold_set_add_elem in Hin as [Hin | Hin].
        -- by apply elem_of_nil in Hin.
        -- rewrite app_nil_r in Hin. apply elem_of_app in Hin as [? | ?]; done.
  - by apply combine_manually_registers.
Qed.

Lemma trigger_all_returns (rs : list ref) (h : heap) :
  trigger_all rs h = (Normal (), (trigger_all rs h).2).
Proof.
  revert h. induction rs as [|r rs IH]; intros h; [done|].
  change (trigger_all (r :: rs) h) with (trigger_all rs (abort r h)). apply IH.
Qed.

(** X11: no spurious cancellation.  Let neither input bring an
    [addEventListener] of its own, and let [P] be a set of signals of the
    store that carry no listeners but those of this module, closed under
    what an abort can reach, and containing neither input nor a source of an
    input.  Then, after the two pending inputs are combined, triggering
    signals of [P], in any number and order, leaves the derived signal
    pending with no event fired, and leaves both inputs as they were. *)
Theorem unrelated_triggers_leave_combined_pending (native_any : bool)
    (a b : ref) (h : heap) (oa ob : sigobj) (P : ref → Prop) (rs : list ref) :
  h !! a = Some oa → h !! b = Some ob →
  not_foreign (s_addEventListener oa) = true →
  not_foreign (s_addEventListener ob) = true →
  is_aborted a h = false → is_aborted b h = false →
  (∀ x o l, P x → h !! x = Some o → l ∈ s_listeners o →
     ∃ t, l_callback l = OnAbort t) →
  closed_under P h →
  (∀ x, P x → x < length h ∧ x ≠ a ∧ x ≠ b
               ∧ (x ∉ sources_of h a) ∧ (x ∉ sources_of h b)) →
  Forall P rs →
  let h1 := (combineAbortSignals native_any (Some a) (Some b) h).2 in
  ∃ h2, trigger_all rs h1 = (Normal (), h2)
        ∧ is_aborted (length h) h2 = false
        ∧ get_fired (length h) h2 = 0
        ∧ h2 !! a = h1 !! a ∧ h2 !! b = h1 !! b.
Proof.
  intros Ha Hb Hma Hmb Hna Hnb _ Hcl HP Hrs h1.
  destruct (combine_both_pending_controller native_any a b h Hna Hnb)
    as (src & oc & Hoc & (_ & Hab & _ & _ & _ & Hf)).
  { intros o Ho. congruence. }
  { intros o Ho. congruence. }
  fold h1 in Hoc.
  assert (closed_under P h1) as Hcl1.
  { intros x o HPx Hx. destruct (HP x HPx) as (Hlt & Hxa & Hxb & Hsa & Hsb).
    unfold h1 in Hx. rewrite combine_frame in Hx by done. by apply (Hcl x o). }
  destruct (trigger_all_within P rs h1 Hcl1 Hrs) as (_ & Hframe & _).
  exists (trigger_all rs h1).2. split; [apply trigger_all_returns|].
  assert (¬ P (length h)) as Hc by (intros HPc; destruct (HP _ HPc); lia).
  assert (¬ P a) as HPa by (intros HPa; by destruct (HP _ HPa) as (_ & ? & _)).
  assert (¬ P b) as HPb by (intros HPb; by destruct (HP _ HPb) as (_ & _ & ? & _)).
  split; [|split; [|split; by apply Hframe]].
  - unfold is_aborted, get_aborted. by rewrite (Hframe _ Hc), Hoc, Hab.
  - unfold get_fired. by rewrite (Hframe _ Hc), Hoc, Hf.
Qed.

Lemma unrelated_triggers_leave_combined_pending_witness :
  let h := [Samples.pending_signal; Samples.pending_signal; Samples.pending_signal] in
  let h1 := (combineAbortSignals true (Some 0) (Some 1) h).2 in
  ∃ h2, trigger_all [2; 2] h1 = (Normal (), h2)
        ∧ is_aborted 3 h2 = false
        ∧ get_fired 3 h2 = 0
        ∧ h2 !! 0 = h1 !! 0 ∧ h2 !! 1 = h1 !! 1.
Proof.
  apply (unrelated_triggers_leave_combined_pending true 0 1
           [Samples.pending_signal; Samples.pending_signal; Samples.pending_signal]
           Samples.pending_signal Samples.pending_signal
           (λ x, x = 2) [2; 2]).
  - reflexivity.
  - reflexivity.
  - reflexivity.
  - reflexivity.
  - reflexivity.
  - reflexivity.
  - intros x o l -> [= <-] Hl. by apply elem_of_nil in Hl.
  - intros x o -> [= <-]. split.
    + intros l t Hl. by apply elem_of_nil in Hl.
    + intros d Hd. by apply elem_of_nil in Hd.
  - intros x ->. simpl. repeat split; try lia.
    + intros Hin. apply list_elem_of_singleton in Hin. lia.
    + intros Hin. apply list_elem_of_singleton in Hin. lia.
  - repeat constructor.
Defined.

(** ** Combining again *)

Lemma genuine_same_state (o o' : sigobj) : same_state o o' → genuine o → genuine o'.
Proof.
  intros (_ & Hab & Hadd & Hrem & _) (Ht & Ha & Hr). repeat split; congruence.
Qed.

(** X12: combining two pending signals proper in a well-formed store gives
    a well-formed store again, in which the result is a pending signal
    proper of this realm and the inputs still are pending signals proper:
    results can be combined further, on the native path where the host has
    it. *)
Theorem combine_result_is_signal (native_any : bool) (a b : ref) (h : heap)
    (oa ob : sigobj) :
  wf h →
  h !! a = Some oa → h !! b = Some ob →
  genuine oa → genuine ob →
  is_aborted a h = false → is_aborted b h = false →
  ∃ h1 oc oa' ob',
    combineAbortSignals native_any (Some a) (Some b) h
    = (Normal (Some (length h)), h1)
    ∧ wf h1
    ∧ h1 !! length h = Some oc ∧ genuine oc ∧ aborted oc = false
    ∧ isRealAbortSignal (length h) h1 = true
    ∧ h1 !! a = Some oa' ∧ genuine oa' ∧ aborted oa' = false
    ∧ h1 !! b = Some ob' ∧ genuine ob' ∧ aborted ob' = false.
Proof.
  intros Hwf Ha Hb Hga Hgb Hna Hnb.
  destruct (combine_pending_spec native_any a b h oa ob Hwf Ha Hb Hga Hgb Hna Hnb)
    as (h1 & oc & Hcomb & Hwf1 & _ & Hc1 & Hoc & _).
  destruct (combine_both_pending_shape native_any a b h Hna Hnb) as (Hreg & _).
  destruct (combine_both_pending_controller native_any a b h Hna Hnb)
    as (src & oc' & Hoc' & Hsame).
  { intros o Ho. assert (o = oa) as -> by congruence.
    destruct Hga as (_ & -> & _). done. }
  { intros o Ho. assert (o = ob) as -> by congruence.
    destruct Hgb as (_ & -> & _). done. }
  rewrite Hcomb in Hreg, Hoc'. simpl in Hreg, Hoc'.
  assert (oc' = oc) as -> by congruence.
  destruct (Hreg a oa Ha) as (oa' & Ha' & Hsa & _).
  destruct (Hreg b ob Hb) as (ob' & Hb' & Hsb & _).
  assert (genuine oc) as Hgc.
  { eapply genuine_same_state; [exact Hsame|]. by repeat split. }
  exists h1, oc, oa', ob'. split; [done|]. split; [done|].
  split; [done|]. split; [done|]. split; [done|]. split.
  { unfold isRealAbortSignal. rewrite Hc1.
    destruct Hsame as (Hinst & _). destruct Hgc as (Ht & Hadd & Hrem).
    rewrite Hinst, Ht, Hadd, Hrem. done. }
  assert (∀ o o', same_state o o' → aborted o' = aborted o) as Hkeep.
  { intros o o' (_ & Hab & _). unfold aborted. by rewrite Hab. }
  rewrite (is_aborted_Some _ _ _ Ha) in Hna. rewrite (is_aborted_Some _ _ _ Hb) in Hnb.
  split; [done|]. split; [by eapply genuine_same_state|].
  split; [by rewrite (Hkeep _ _ Hsa)|].
  split; [done|]. split; [by eapply genuine_same_state|].
  by rewrite (Hkeep _ _ Hsb).
Qed.

Lemma combine_result_is_signal_witness :
  let h := [Samples.pending_signal; Samples.foreign_realm_signal] in
  ∃ h1 oc oa' ob',
    combineAbortSignals true (Some 0) (Some 1) h = (Normal (Some 2), h1)
    ∧ wf h1
    ∧ h1 !! 2 = Some oc ∧ genuine oc ∧ aborted oc = false
    ∧ isRealAbortSignal 2 h1 = true
    ∧ h1 !! 0 = Some oa' ∧ genuine oa' ∧ aborted oa' = false
    ∧ h1 !! 1 = Some ob' ∧ genuine ob' ∧ aborted ob' = false.
Proof.
  apply (combine_result_is_signal true 0 1
           [Samples.pending_signal; Samples.foreign_realm_signal]
           Samples.pending_signal Samples.foreign_realm_signal).
  - apply (wf_alloc [Samples.pending_signal]); [|done..].
    apply (wf_alloc []); [apply wf_nil | done..].
  - reflexivity.
  - reflexivity.
  - repeat split.
  - repeat split.
  - reflexivity.
  - reflexivity.
Defined.

(** ** Once-listeners *)

Section Keeps.

(** Aborts that leave triggered signals alone. *)
Variable run : ref → heap → heap.
Hypothesis run_keeps :
  ∀ t h x, is_aborted x h = true → run t h !! x = h !! x.

Lemma is_aborted_same (h h' : heap) (x : ref) :
  h' !! x = h !! x → is_aborted x h' = is_aborted x h.
Proof. intros H. unfold is_aborted, get_aborted. by rewrite H. Qed.

Lemma remove_listener_frame (y : ref) (l : listener) (h : heap) (x : ref) :
  x ≠ y → remove_listener y l h !! x = h !! x.
Proof.
  intros Hne. unfold remove_listener. destruct (h !! y); [|done].
  by rewrite list_lookup_insert_ne.
Qed.

Lemma dispatch_keeps (y : ref) (ls : list listener) (h : heap) (x : ref) :
  x ≠ y → is_aborted x h = true → dispatch run y ls h !! x = h !! x.
Proof.
  intros Hne. revert h. induction ls as [|l ls IH]; intros h Hx; cbn [dispatch];
    [done|].
  set (h1 := if l_once l then remove_listener y l h else h).
  assert (h1 !! x = h !! x) as H1.
  { unfold h1. destruct (l_once l); [by apply remove_listener_frame | done]. }
  destruct (run_callback run (l_callback l) h1) as [res h2] eqn:Hrun.
  assert (h2 !! x = h !! x) as H2.
  { unfold run_callback in Hrun.
    destruct (l_callback l) as [t|k st [e|]]; injection Hrun as <- <-; [|done..].
    rewrite run_keeps; [done|]. by rewrite (is_aborted_same _ _ _ H1). }
  destruct (stops_propagation (l_callback l)); [done|].
  rewrite IH; [done|]. by rewrite (is_aborted_same _ _ _ H2).
Qed.

Lemma fire_abort_keeps (y : ref) (h : heap) (x : ref) :
  x ≠ y → is_aborted x h = true → fire_abort run h y !! x = h !! x.
Proof.
  intros Hne Hx. unfold fire_abort. destruct (h !! y) as [o|]; [|done].
  assert (<[y := count_event o]> h !! x = h !! x) as H1
    by by rewrite list_lookup_insert_ne.
  rewrite dispatch_keeps; [done..|]. by rewrite (is_aborted_same _ _ _ H1).
Qed.

Lemma fire_all_keeps (todo : list ref) (h : heap) (x : ref) :
  x ∉ todo → is_aborted x h = true →
  fold_left (fire_abort run) todo h !! x = h !! x.
Proof.
  revert h. induction todo as [|y todo IH]; intros h Hx Hab; simpl; [done|].
  apply not_elem_of_cons in Hx as [Hne Hx].
  pose proof (fire_abort_keeps y h x Hne Hab) as H1.
  rewrite IH; [done..|]. by rewrite (is_aborted_same _ _ _ H1).
Qed.

(** Dispatching at a triggered signal, when no listener stops the
    propagation, leaves none of the dispatched once-listeners on it, and
    changes nothing else of it. *)
Lemma dispatch_removes_once (x : ref) (ls : list listener) (h : heap) (ox : sigobj) :
  quiet ls →
  h !! x = Some ox → aborted ox = true →
  ∃ ls', dispatch run x ls h !! x = Some (with_listeners ox ls')
         ∧ ls' ⊆ s_listeners ox
         ∧ ∀ l, l ∈ ls → l_once l = true → l ∉ ls'.
Proof.
  intros Hq. revert h ox.
  induction ls as [|l ls IH]; intros h ox Hx Hab; cbn [dispatch].
  { exists (s_listeners ox). rewrite with_listeners_id. split; [done|].
    split; [done|]. intros l Hl. by apply elem_of_nil in Hl. }
  pose proof (lookup_lt_Some _ _ _ Hx) as Hlt.
  set (h1 := if l_once l then remove_listener x l h else h).
  assert (∃ ls1, h1 !! x = Some (with_listeners ox ls1) ∧ ls1 ⊆ s_listeners ox
                 ∧ (l_once l = true → l ∉ ls1)) as (ls1 & Hx1 & Hsub1 & Hl1).
  { unfold h1. destruct (l_once l).
    - exists (filter (λ l', l' ≠ l) (s_listeners ox)).
      unfold remove_listener. rewrite Hx, list_lookup_insert_eq by done.
      split; [done|]. split.
      + intros l' Hl'. by apply list_elem_of_filter in Hl' as [_ ?].
      + intros _ Hin. by apply list_elem_of_filter in Hin as [? _].
    - exists (s_listeners ox). by rewrite with_listeners_id. }
  clearbody h1.
  destruct (run_callback run (l_callback l) h1) as [res h2] eqn:Hrun.
  assert (h2 !! x = Some (with_listeners ox ls1)) as Hx2.
  { unfold run_callback in Hrun.
    destruct (l_callback l) as [t|k st [e|]]; injection Hrun as <- <-; [|done..].
    rewrite run_keeps; [done|]. by rewrite (is_aborted_Some _ _ _ Hx1). }
  rewrite (Hq l) by (apply elem_of_cons; by left).
  destruct (IH (λ l' Hl', Hq l' (proj2 (elem_of_cons _ _ _) (or_intror Hl')))
              h2 _ Hx2 Hab) as (ls' & Hx' & Hsub' & Hls').
  exists ls'. split; [done|]. simpl in Hsub'. split; [by etrans|].
  intros l' Hin Honce. apply elem_of_cons in Hin as [-> | Hin]; [|by apply Hls'].
  intros Hin'. by apply (Hl1 Honce), Hsub'.
Qed.

End Keeps.

Lemma mark_dependents_keeps (ds : list ref) (h : heap) (x : ref) :
  is_aborted x h = true → (mark_dependents ds h).2 !! x = h !! x.
Proof.
  intros Hab. destruct (mark_dependents ds h) as [marked h'] eqn:Hm. simpl.
  destruct (mark_dependents_spec _ _ _ _ Hm) as (_ & Hobj & _ & Hmk & _).
  destruct (is_aborted_valid _ _ Hab) as (ox & Hx & Hox).
  rewrite (Hobj x ox Hx), Hx. rewrite decide_False; [done|].
  intros Hin. destruct (Hmk x Hin) as (_ & ox' & Hx' & Hox'). congruence.
Qed.

(** "Signal abort" never touches a signal that is triggered already. *)
Lemma signal_abort_keeps (fuel : nat) (t : ref) (h : heap) (x : ref) :
  is_aborted x h = true → signal_abort fuel t h !! x = h !! x.
Proof.
  revert t h x. induction fuel as [|fuel IH]; intros t h x Hab; simpl; [done|].
  destruct (h !! t) as [o|] eqn:Ht; [|done].
  destruct (truthy (s_aborted o)) eqn:Hoa; [done|].
  assert (x ≠ t) as Hne.
  { intros ->. rewrite (is_aborted_Some _ _ _ Ht) in Hab. unfold aborted in Hab.
    congruence. }
  assert (<[t := set_aborted o]> h !! x = h !! x) as H1
    by by rewrite list_lookup_insert_ne.
  pose proof (mark_dependents_keeps (s_dependents o) (<[t := set_aborted o]> h) x)
    as H2.
  destruct (mark_dependents _ _) as [marked h2] eqn:Hm. simpl in H2.
  rewrite (is_aborted_same _ _ _ H1) in H2. specialize (H2 Hab).
  destruct (mark_dependents_spec _ _ _ _ Hm) as (_ & _ & _ & Hmk & _).
  assert (is_aborted x h2 = true) as Hab2.
  { rewrite (is_aborted_same _ _ _ H2). by rewrite (is_aborted_same _ _ _ H1). }
  assert (x ∉ marked) as Hxm.
  { intros Hin. destruct (Hmk x Hin) as (_ & ox & Hx & Hox).
    rewrite H1 in Hx. rewrite (is_aborted_Some _ _ _ Hx) in Hab. congruence. }
  pose proof (fire_abort_keeps (signal_abort fuel) IH t h2 x Hne Hab2) as H3.
  change (fold_left (fire_abort (signal_abort fuel)) marked
            (fire_abort (signal_abort fuel) h2 t) !! x = h !! x).
  rewrite (fire_all_keeps (signal_abort fuel) IH);
    [congruence | done | by rewrite (is_aborted_same _ _ _ H3)].
Qed.

(** Triggering a pending signal none of whose listeners stops the
    propagation leaves no once-listener on it. *)
Lemma abort_removes_once (r : ref) (h : heap) (o : sigobj) :
  quiet (s_listeners o) →
  h !! r = Some o → aborted o = false →
  ∃ ls', abort r h !! r
         = Some (with_listeners (count_event (set_aborted o)) ls')
         ∧ ls' ⊆ s_listeners o
         ∧ ∀ l, l ∈ ls' → l_once l = false.
Proof.
  intros Hq Hr Hoa. unfold abort. simpl. rewrite Hr. unfold aborted in Hoa. rewrite Hoa.
  pose proof (lookup_lt_Some _ _ _ Hr) as Hlt.
  set (fuel := length h).
  assert (<[r := set_aborted o]> h !! r = Some (set_aborted o)) as H1
    by by rewrite list_lookup_insert_eq.
  pose proof (mark_dependents_keeps (s_dependents o) (<[r := set_aborted o]> h) r)
    as H2.
  destruct (mark_dependents _ _) as [marked h2] eqn:Hm. simpl in H2.
  rewrite (is_aborted_Some _ _ _ H1) in H2. specialize (H2 eq_refl).
  rewrite H1 in H2.
  destruct (mark_dependents_spec _ _ _ _ Hm) as (_ & _ & _ & Hmk & _).
  assert (r ∉ marked) as Hrm.
  { intros Hin. destruct (Hmk r Hin) as (_ & ox & Hx & Hox).
    rewrite H1 in Hx. by injection Hx as <-. }
  set (h3 := <[r := count_event (set_aborted o)]> h2).
  change (∃ ls',
    fold_left (fire_abort (signal_abort fuel)) marked
      (fire_abort (signal_abort fuel) h2 r) !! r
    = Some (with_listeners (count_event (set_aborted o)) ls')
    ∧ ls' ⊆ s_listeners o ∧ ∀ l, l ∈ ls' → l_once l = false).
  assert (fire_abort (signal_abort fuel) h2 r
          = dispatch (signal_abort fuel) r (s_listeners o) h3) as ->.
  { unfold fire_abort. by rewrite H2. }
  assert (h3 !! r = Some (count_event (set_aborted o))) as H3.
  { unfold h3. rewrite list_lookup_insert_eq; [done|]. by eapply lookup_lt_Some. }
  destruct (dispatch_removes_once (signal_abort fuel) (signal_abort_keeps fuel)
              r (s_listeners o) h3 _ Hq H3 eq_refl) as (ls' & H4 & Hsub & Honce).
  exists ls'. split; [|split; [done|]].
  - rewrite (fire_all_keeps (signal_abort fuel) (signal_abort_keeps fuel));
      [done | done |].
    by rewrite (is_aborted_Some _ _ _ H4).
  - intros l Hl. destruct (l_once l) eqn:Ho; [|done].
    destruct (Honce l (Hsub l Hl) Ho Hl).
Qed.

(** The manual path on two inputs that have the platform's
    [addEventListener]. *)
Lemma combine_manually_genuine (a b : ref) (h : heap) (oa ob : sigobj) :
  h !! a = Some oa → h !! b = Some ob →
  s_addEventListener oa = MEventTarget → s_addEventListener ob = MEventTarget →
  let l := {| l_callback := OnAbort (length h); l_once := true |} in
  combine_manually a b h
  = (Normal (Some (length h)),
     add_listener b l (add_listener a l (h ++ [fresh_signal None]))).
Proof.
  intros Ha Hb Hma Hmb l.
  pose proof (lookup_lt_Some _ _ _ Ha) as Hla.
  pose proof (lookup_lt_Some _ _ _ Hb) as Hlb.
  unfold combine_manually, bind, new_AbortController, call_addEventListener.
  set (h0 := h ++ [fresh_signal None]).
  assert (h0 !! a = Some oa) as Ha0 by (unfold h0; by rewrite lookup_app_l).
  assert (h0 !! b = Some ob) as Hb0 by (unfold h0; by rewrite lookup_app_l).
  rewrite Ha0, Hma. fold l.
  destruct (add_listener_registers a l h0) as [Hreg1 _].
  destruct (Hreg1 b ob Hb0) as (ob1 & Hb1 & (_ & _ & Hmb1 & _) & _).
  by rewrite Hb1, Hmb1, Hmb.
Qed.

Lemma add_listener_has (r : ref) (l : listener) (h : heap) (o : sigobj) :
  h !! r = Some o →
  ∃ o' l', add_listener r l h !! r = Some o' ∧ l' ∈ s_listeners o'
           ∧ l_callback l' = l_callback l.
Proof.
  intros Hr. unfold add_listener. rewrite Hr. destruct (existsb _ _) eqn:Hex.
  - destruct (existsb_same_callback _ _ Hex) as (l' & Hin & Hcb). by exists o, l'.
  - eexists _, l. rewrite list_lookup_insert_eq by by eapply lookup_lt_Some.
    split; [done|]. split; [|done]. simpl. apply elem_of_app. right. by left.
Qed.

(** X13: the once-listeners of the manual path.  In a host without
    [AbortSignal.any], let two pending signals proper be combined, the first
    a controller signal none of whose earlier listeners stops the immediate
    propagation of the "abort" event.  After the first is triggered, no
    listener for the derived signal is left on it, and the second input, as
    long as it is pending, still carries its listener for the derived
    signal. *)
Theorem manual_listener_removed_after_fire (a b : ref) (h : heap)
    (oa ob : sigobj) :
  wf h →
  h !! a = Some oa → h !! b = Some ob →
  genuine oa → genuine ob →
  s_sources oa = None →
  quiet (s_listeners oa) →
  is_aborted a h = false → is_aborted b h = false →
  let h1 := (combineAbortSignals false (Some a) (Some b) h).2 in
  let h2 := abort a h1 in
  (∀ oa2 l, h2 !! a = Some oa2 → l ∈ s_listeners oa2 →
     l_callback l ≠ OnAbort (length h))
  ∧ (is_aborted b h2 = false →
     ∃ ob2 l, h2 !! b = Some ob2 ∧ l ∈ s_listeners ob2
              ∧ l_callback l = OnAbort (length h)).
Proof.
  intros Hwf Ha Hb Hga Hgb Hsrc Hq Hna Hnb h1 h2.
  pose proof (lookup_lt_Some _ _ _ Ha) as Hla.
  pose proof (lookup_lt_Some _ _ _ Hb) as Hlb.
  destruct (combine_pending_spec false a b h oa ob Hwf Ha Hb Hga Hgb Hna Hnb)
    as (h1' & oc & Hcomb & Hwf1 & _ & _ & _ & _ & Hna1 & _).
  assert (h1' = h1) as -> by (unfold h1; by rewrite Hcomb).
  destruct Hga as (_ & Hma & _). destruct Hgb as (_ & Hmb & _).
  set (l0 := {| l_callback := OnAbort (length h); l_once := true |}).
  set (h0 := h ++ [fresh_signal None]).
  assert (h1 = add_listener b l0 (add_listener a l0 h0)) as Hman.
  { unfold h1, combineAbortSignals. rewrite Hna, Hnb. cbn [andb].
    by rewrite (combine_manually_genuine a b h oa ob Ha Hb Hma Hmb). }
  assert (∀ x o1, x < length h → h1 !! x = Some o1 →
            ∃ o, h !! x = Some o
                 ∧ ∀ l, l ∈ s_listeners o1 → l ∈ s_listeners o ∨ l = l0) as Hback.
  { intros x o1 Hx Hx1. rewrite Hman in Hx1.
    destruct (add_listener_back _ _ _ _ _ Hx1) as (o' & Hx' & _ & Hls').
    destruct (add_listener_back _ _ _ _ _ Hx') as (o & Hx0 & _ & Hls).
    exists o. split; [by unfold h0 in Hx0; rewrite lookup_app_l in Hx0|].
    intros l Hl. destruct (Hls' l Hl) as [Hl' | ->]; [by apply Hls | by right]. }
  destruct (combine_both_pending_shape false a b h Hna Hnb) as (Hreg & _).
  fold h1 in Hreg.
  destruct (Hreg a oa Ha) as (oa1 & Ha1 & (_ & _ & _ & _ & Hsrc1 & _) & _).
  rewrite (is_aborted_Some _ _ _ Ha1) in Hna1.
  destruct (Hback a oa1 Hla Ha1) as (oa0 & Ha0 & Hls).
  assert (oa0 = oa) as -> by congruence.
  assert (quiet (s_listeners oa1)) as Hq1.
  { intros l Hl. destruct (Hls l Hl) as [Hl0 | ->]; [by apply Hq | done]. }
  split.
  - intros oa2 l Ha2 Hl Hcb.
    destruct (abort_removes_once a h1 oa1 Hq1 Ha1 Hna1)
      as (ls' & Ha2' & Hsub & Honce).
    fold h2 in Ha2'. rewrite Ha2' in Ha2. injection Ha2 as <-. simpl in Hl.
    pose proof (Hsub l Hl) as Hl1.
    destruct (Hls l Hl1) as [Hl0 | ->].
    + destruct (wf_listeners _ Hwf a oa l _ Ha Hl0 Hcb) as (o & Ho & _).
      apply lookup_lt_Some in Ho. lia.
    + by specialize (Honce _ Hl).
  - intros Hnb2.
    destruct (abort_spec a h1 Hwf1) as [Hp _].
    { intros o Ho. congruence. }
    fold h2 in Hp.
    destruct (Hreg b ob Hb) as (ob1 & Hb1 & _).
    assert (∃ l, l ∈ s_listeners ob1 ∧ l_callback l = OnAbort (length h))
      as (l & Hl & Hcb).
    { assert (∃ ob', add_listener a l0 h0 !! b = Some ob') as (ob' & Hb').
      { apply lookup_lt_is_Some_2.
        destruct (add_listener_registers a l0 h0) as [_ ->].
        unfold h0. rewrite length_app. simpl. lia. }
      destruct (add_listener_has b l0 _ ob' Hb') as (ob2 & l & Hb2 & Hl & Hcb).
      rewrite <- Hman in Hb2. assert (ob2 = ob1) as -> by congruence.
      by exists l. }
    destruct (ps_obj _ _ _ Hp b ob1 Hb1) as (ob2 & Hb2 & _ & Hstep).
    rewrite (is_aborted_Some _ _ _ Hb2) in Hnb2.
    assert (ob2 = ob1) as ->.
    { apply obj_step_pending; [|done]. apply Hstep, not_elem_of_nil. }
    by exists ob1, l.
Qed.

Lemma manual_listener_removed_after_fire_witness :
  let h := [Samples.noisy_signal; Samples.pending_signal] in
  let h1 := (combineAbortSignals false (Some 0) (Some 1) h).2 in
  let h2 := abort 0 h1 in
  (∀ oa2 l, h2 !! 0 = Some oa2 → l ∈ s_listeners oa2 → l_callback l ≠ OnAbort 2)
  ∧ (is_aborted 1 h2 = false →
     ∃ ob2 l, h2 !! 1 = Some ob2 ∧ l ∈ s_listeners ob2 ∧ l_callback l = OnAbort 2).
Proof.
  apply (manual_listener_removed_after_fire 0 1
           [Samples.noisy_signal; Samples.pending_signal]
           Samples.noisy_signal Samples.pending_signal).
  - apply wf_samples; [|done..]. simpl. intros l Hl t.
    apply list_elem_of_singleton in Hl as ->. done.
  - reflexivity.
  - reflexivity.
  - repeat split.
  - repeat split.
  - reflexivity.
  - simpl. intros l Hl. by apply list_elem_of_singleton in Hl as ->.
  - reflexivity.
  - reflexivity.
Defined.
